(** * rustywebserver: a shallow embedding of [src/main.rs]

    Strings are Rust byte strings: a Rocq [string] is a list of 8-bit
    [ascii] characters, i.e. exactly the bytes of a Rust [&str] or
    [String].  Paths are the raw [PathBuf] strings of a Unix system.  The
    connection, the filesystem and child processes are explicit inputs of
    the model (see [World] and [St]). *)

From Stdlib Require Import String Ascii List Bool Arith Lia NArith.
Import ListNotations.
Open Scope string_scope.

(** ** Bytes and Rust string helpers *)

Definition byte_nat (c : ascii) : nat := nat_of_ascii c.

(** [char::is_whitespace] (the Unicode White_Space property) on the UTF-8
    encoding of a character.  One byte: ' ', \t, \n, \x0B, \x0C, \r. *)
Definition is_ws (c : ascii) : bool :=
  let n := byte_nat c in
  Nat.eqb n 32 || Nat.eqb n 9 || Nat.eqb n 10 || Nat.eqb n 11 || Nat.eqb n 12 || Nat.eqb n 13.

(** Two bytes: U+0085 (C2 85) and U+00A0 (C2 A0). *)
Definition ws2 (c d : ascii) : bool :=
  Nat.eqb (byte_nat c) 194 && (Nat.eqb (byte_nat d) 133 || Nat.eqb (byte_nat d) 160).

(** Three bytes: U+1680 (E1 9A 80), U+2000-U+200A (E2 80 80-8A), U+2028,
    U+2029, U+202F (E2 80 A8, A9, AF), U+205F (E2 81 9F), U+3000 (E3 80 80). *)
Definition ws3 (c d e : ascii) : bool :=
  (Nat.eqb (byte_nat c) 225 && Nat.eqb (byte_nat d) 154 && Nat.eqb (byte_nat e) 128) ||
  (Nat.eqb (byte_nat c) 226 && Nat.eqb (byte_nat d) 128 &&
     ((Nat.leb 128 (byte_nat e) && Nat.leb (byte_nat e) 138) || Nat.eqb (byte_nat e) 168 ||
      Nat.eqb (byte_nat e) 169 || Nat.eqb (byte_nat e) 175)) ||
  (Nat.eqb (byte_nat c) 226 && Nat.eqb (byte_nat d) 129 && Nat.eqb (byte_nat e) 159) ||
  (Nat.eqb (byte_nat c) 227 && Nat.eqb (byte_nat d) 128 && Nat.eqb (byte_nat e) 128).

Fixpoint str_rev_app (s acc : string) : string :=
  match s with
  | EmptyString => acc
  | String c s' => str_rev_app s' (String c acc)
  end.

Definition str_rev (s : string) : string := str_rev_app s EmptyString.

(** [str::trim_start]: drops leading whitespace characters of one, two or
    three bytes.  (The strings trimmed are valid UTF-8, where the lead bytes
    C2, E1-E3 always start a character.) *)
Fixpoint trim_start (s : string) : string :=
  match s with
  | EmptyString => EmptyString
  | String c s1 =>
      if is_ws c then trim_start s1
      else match s1 with
           | String d s2 =>
               if ws2 c d then trim_start s2
               else match s2 with
                    | String e s3 => if ws3 c d e then trim_start s3 else s
                    | EmptyString => s
                    end
           | EmptyString => s
           end
  end.

(** [str::trim_end], on the reversed bytes: a trailing character "c d e"
    appears there as "e d c". *)
Fixpoint trim_start_rev (r : string) : string :=
  match r with
  | EmptyString => EmptyString
  | String e r1 =>
      if is_ws e then trim_start_rev r1
      else match r1 with
           | String d r2 =>
               if ws2 d e then trim_start_rev r2
               else match r2 with
                    | String c r3 => if ws3 c d e then trim_start_rev r3 else r
                    | EmptyString => r
                    end
           | EmptyString => r
           end
  end.

Definition trim_end (s : string) : string := str_rev (trim_start_rev (str_rev s)).

(** [str::trim] *)
Definition trim (s : string) : string := trim_end (trim_start s).

(** [str::trim_start_matches(c)] for a character pattern *)
Fixpoint trim_start_matches (c : ascii) (s : string) : string :=
  match s with
  | String d s' => if Ascii.eqb c d then trim_start_matches c s' else s
  | EmptyString => EmptyString
  end.

(** [str::find(c)] for a character: byte index of its first occurrence. *)
Fixpoint find_char (c : ascii) (s : string) : option nat :=
  match s with
  | EmptyString => None
  | String d s' =>
      if Ascii.eqb c d then Some 0
      else option_map S (find_char c s')
  end.

(** [str::find(pat)] for a string pattern. *)
Fixpoint find_str (pat s : string) : option nat :=
  if prefix pat s then Some 0
  else match s with
       | EmptyString => None
       | String _ s' => option_map S (find_str pat s')
       end.

(** [str::contains(pat)] *)
Definition contains (s pat : string) : bool :=
  match find_str pat s with Some _ => true | None => false end.

(** [str::starts_with(c)] for a character *)
Definition starts_with_char (c : ascii) (s : string) : bool :=
  match s with String d _ => Ascii.eqb c d | EmptyString => false end.

(** [str::split(c)]: always yields at least one piece. *)
Fixpoint split_char (c : ascii) (s : string) : list string :=
  match s with
  | EmptyString => [EmptyString]
  | String d s' =>
      if Ascii.eqb c d then EmptyString :: split_char c s'
      else match split_char c s' with
           | p :: ps => String d p :: ps
           | [] => [String d EmptyString]
           end
  end.

(** [str::split_once(c)] *)
Fixpoint split_once (c : ascii) (s : string) : option (string * string) :=
  match s with
  | EmptyString => None
  | String d s' =>
      if Ascii.eqb c d then Some (EmptyString, s')
      else match split_once c s' with
           | Some (a, b) => Some (String d a, b)
           | None => None
           end
  end.

(** [str::split_whitespace]: [cur] holds the current piece reversed. *)
Fixpoint split_ws_aux (s : string) (cur : string) : list string :=
  match s with
  | EmptyString => if String.eqb cur EmptyString then [] else [str_rev cur]
  | String c s1 =>
      if is_ws c then
        (if String.eqb cur EmptyString then [] else [str_rev cur]) ++ split_ws_aux s1 EmptyString
      else match s1 with
           | String d s2 =>
               if ws2 c d then
                 (if String.eqb cur EmptyString then [] else [str_rev cur]) ++ split_ws_aux s2 EmptyString
               else match s2 with
                    | String e s3 =>
                        if ws3 c d e then
                          (if String.eqb cur EmptyString then [] else [str_rev cur])
                            ++ split_ws_aux s3 EmptyString
                        else split_ws_aux s1 (String c cur)
                    | EmptyString => split_ws_aux s1 (String c cur)
                    end
           | EmptyString => split_ws_aux s1 (String c cur)
           end
  end.

Definition split_whitespace (s : string) : list string := split_ws_aux s EmptyString.

(** [str::lines]: pieces of [split_inclusive('\n')], each with one
    trailing "\n" and then one trailing "\r" removed; no empty last line. *)
Definition nl : ascii := ascii_of_nat 10.
Definition cr : ascii := ascii_of_nat 13.

Definition strip_line_end (l : string) : string :=
  let r := str_rev l in
  match r with
  | String c r' =>
      if Ascii.eqb c nl then
        match r' with
        | String c' r'' => if Ascii.eqb c' cr then str_rev r'' else str_rev r'
        | EmptyString => EmptyString
        end
      else l
  | EmptyString => l
  end.

(** [split_inclusive('\n')] *)
Fixpoint split_incl_aux (s : string) (cur : string) : list string :=
  match s with
  | EmptyString => if String.eqb cur EmptyString then [] else [str_rev cur]
  | String d s' =>
      if Ascii.eqb d nl then str_rev (String d cur) :: split_incl_aux s' EmptyString
      else split_incl_aux s' (String d cur)
  end.

Definition split_inclusive_nl (s : string) : list string := split_incl_aux s EmptyString.

Definition lines (s : string) : list string := map strip_line_end (split_inclusive_nl s).

(** [slice.join(sep)] *)
Fixpoint join (sep : string) (l : list string) : string :=
  match l with
  | [] => EmptyString
  | [x] => x
  | x :: xs => x ++ sep ++ join sep xs
  end.

(** Decimal rendering of a length ([{}] of a [usize]). *)
Definition digit_char (n : nat) : ascii := ascii_of_nat (48 + n).

Fixpoint dec_aux (fuel n : nat) (acc : string) : string :=
  match fuel with
  | O => acc
  | S f =>
      let acc' := String (digit_char (n mod 10)) acc in
      if Nat.ltb n 10 then acc' else dec_aux f (n / 10) acc'
  end.

Definition dec (n : nat) : string := dec_aux (S n) n EmptyString.

(** [str::parse::<usize>()] on a 64-bit target: an optional '+', then one
    or more ASCII digits, no overflow. *)
Definition usize_max : N := 18446744073709551615%N.

Fixpoint parse_digits (s : string) (acc : N) : option N :=
  match s with
  | EmptyString => Some acc
  | String c s' =>
      let n := byte_nat c in
      if Nat.leb 48 n && Nat.leb n 57 then
        let acc' := (acc * 10 + N.of_nat (n - 48))%N in
        if N.ltb usize_max acc' then None else parse_digits s' acc'
      else None
  end.

Definition parse_usize (s : string) : option N :=
  let body := match s with
              | String c s' => if Ascii.eqb c "+"%char then s' else s
              | EmptyString => s
              end in
  match body with
  | EmptyString => None
  | _ => parse_digits body 0
  end.

Definition crlf := String cr (String nl EmptyString).

(** ** UTF-8: [str::from_utf8] and [String::from_utf8_lossy]

    [utf8_chunk] looks at the head of a byte string the way the standard
    library's validator does: [(true, k)] when the next [k] bytes are one
    well-formed character, [(false, k)] when the next [k] bytes are the
    maximal prefix of an ill-formed or truncated sequence. *)

Definition in_range (lo hi : nat) (c : ascii) : bool :=
  Nat.leb lo (byte_nat c) && Nat.leb (byte_nat c) hi.

Definition is_cont (c : ascii) : bool := in_range 128 191 c.

Definition utf8_chunk (c : ascii) (s : string) : bool * nat :=
  let b := byte_nat c in
  if Nat.ltb b 128 then (true, 1)
  else if in_range 194 223 c then
    match s with
    | String c1 _ => if is_cont c1 then (true, 2) else (false, 1)
    | EmptyString => (false, 1)
    end
  else if in_range 224 239 c then
    let ok1 := if Nat.eqb b 224 then in_range 160 191
               else if Nat.eqb b 237 then in_range 128 159 else is_cont in
    match s with
    | String c1 s1 =>
        if ok1 c1 then
          match s1 with
          | String c2 _ => if is_cont c2 then (true, 3) else (false, 2)
          | EmptyString => (false, 2)
          end
        else (false, 1)
    | EmptyString => (false, 1)
    end
  else if in_range 240 244 c then
    let ok1 := if Nat.eqb b 240 then in_range 144 191
               else if Nat.eqb b 244 then in_range 128 143 else is_cont in
    match s with
    | String c1 s1 =>
        if ok1 c1 then
          match s1 with
          | String c2 s2 =>
              if is_cont c2 then
                match s2 with
                | String c3 _ => if is_cont c3 then (true, 4) else (false, 3)
                | EmptyString => (false, 3)
                end
              else (false, 2)
          | EmptyString => (false, 2)
          end
        else (false, 1)
    | EmptyString => (false, 1)
    end
  else (false, 1).

(** U+FFFD REPLACEMENT CHARACTER, as UTF-8 bytes. *)
Definition replacement : string :=
  String (ascii_of_nat 239) (String (ascii_of_nat 191) (String (ascii_of_nat 189) EmptyString)).

Fixpoint utf8_valid_fuel (fuel : nat) (s : string) : bool :=
  match fuel with
  | O => true
  | S f =>
      match s with
      | EmptyString => true
      | String c s' =>
          let (ok, k) := utf8_chunk c s' in
          ok && utf8_valid_fuel f (substring k (String.length s) s)
      end
  end.

(** [str::from_utf8(..).is_ok()] *)
Definition utf8_valid (s : string) : bool := utf8_valid_fuel (String.length s) s.

Fixpoint lossy_fuel (fuel : nat) (s : string) : string :=
  match fuel with
  | O => EmptyString
  | S f =>
      match s with
      | EmptyString => EmptyString
      | String c s' =>
          let (ok, k) := utf8_chunk c s' in
          (if ok then substring 0 k s else replacement)
            ++ lossy_fuel f (substring k (String.length s) s)
      end
  end.

(** [String::from_utf8_lossy] *)
Definition from_utf8_lossy (s : string) : string := lossy_fuel (String.length s) s.

(** ** Unix paths ([std::path]) *)

Inductive component : Type :=
| RootDir
| CurDir
| ParentDir
| Normal (s : string).

Definition component_eqb (a b : component) : bool :=
  match a, b with
  | RootDir, RootDir | CurDir, CurDir | ParentDir, ParentDir => true
  | Normal x, Normal y => String.eqb x y
  | _, _ => false
  end.

Definition slash : ascii := "/"%char.

(** Each raw '/'-separated segment of a path, tagged with the component it
    contributes ([None]: an empty or "." segment, which [Components] skips). *)
Definition tag_segment (s : string) : option component :=
  if String.eqb s "" then None
  else if String.eqb s "." then None
  else if String.eqb s ".." then Some ParentDir
  else Some (Normal s).

Definition tagged (p : string) : list (option component * string) :=
  match split_char slash p with
  | [] => []
  | s0 :: rest =>
      let first :=
        if starts_with_char slash p then Some RootDir
        else if String.eqb s0 "." then Some CurDir
        else tag_segment s0 in
      (first, s0) :: map (fun s => (tag_segment s, s)) rest
  end.

Fixpoint somes {A} (l : list (option A)) : list A :=
  match l with
  | [] => []
  | Some x :: l' => x :: somes l'
  | None :: l' => somes l'
  end.

(** [Path::components] *)
Definition components (p : string) : list component := somes (map fst (tagged p)).

Fixpoint comps_prefix (a b : list component) : bool :=
  match a, b with
  | [], _ => true
  | x :: a', y :: b' => component_eqb x y && comps_prefix a' b'
  | _ :: _, [] => false
  end.

(** [Path::starts_with] and [Path::ends_with] *)
Definition path_starts_with (p base : string) : bool :=
  comps_prefix (components base) (components p).

Definition path_ends_with (p child : string) : bool :=
  comps_prefix (rev (components child)) (rev (components p)).

(** [PathBuf::push] / [Path::join] *)
Definition ends_with_char (c : ascii) (s : string) : bool :=
  starts_with_char c (str_rev s).

Definition path_join (base rel : string) : string :=
  if starts_with_char slash rel then rel
  else if String.eqb base "" then rel
  else if ends_with_char slash base then base ++ rel
  else base ++ String slash rel.

(** [Path::file_name] *)
Definition file_name (p : string) : option string :=
  match rev (components p) with
  | Normal s :: _ => Some s
  | _ => None
  end.

(** The components of [Path::parent], if it has one. *)
Definition parent_components (p : string) : option (list component) :=
  match rev (components p) with
  | (Normal _ | CurDir | ParentDir) :: r => Some (rev r)
  | _ => None
  end.

(** [Path::extension]: what follows the last '.' of the file name, unless
    the name is ".." or its only '.' is the leading one. *)
Fixpoint rsplit_dot_aux (s : string) (cur : string) : option (string * string) :=
  match s with
  | EmptyString => None
  | String c s' =>
      if Ascii.eqb c "."%char then
        match rsplit_dot_aux s' EmptyString with
        | Some (b, a) => Some (str_rev cur ++ "." ++ b, a)
        | None => Some (str_rev cur, s')
        end
      else rsplit_dot_aux s' (String c cur)
  end.

Definition extension (p : string) : option string :=
  match file_name p with
  | None => None
  | Some name =>
      if String.eqb name ".." then None
      else match rsplit_dot_aux name EmptyString with
           | Some (before, after) => if String.eqb before "" then None else Some after
           | None => None
           end
  end.

(** [Path::strip_prefix(base)] followed by [display()]: the raw rest of
    the path once the components of [base] are consumed, with leading and
    trailing empty or "." segments trimmed ([Components::as_path]). *)
Fixpoint strip_tagged (bc : list component) (tp : list (option component * string))
  : option (list (option component * string)) :=
  match bc with
  | [] => Some tp
  | b :: bc' =>
      match tp with
      | [] => None
      | (None, _) :: tp' => strip_tagged bc tp'
      | (Some c, _) :: tp' => if component_eqb b c then strip_tagged bc' tp' else None
      end
  end.

Fixpoint drop_untagged (tp : list (option component * string)) : list (option component * string) :=
  match tp with
  | (None, _) :: tp' => drop_untagged tp'
  | _ => tp
  end.

Definition strip_prefix (p base : string) : option string :=
  match strip_tagged (components base) (tagged p) with
  | None => None
  | Some tp => Some (join "/" (map snd (rev (drop_untagged (rev (drop_untagged tp))))))
  end.

(** ** The filesystem

    A snapshot of the tree below "/": each entry maps the canonical
    component list of a node to the node.  "/" itself is a readable
    directory.  Symbolic links are not modelled, so a path resolves by
    walking its components, ".." going up one level (at "/" it stays). *)

Inductive node : Type :=
| NDir (readable : bool)
| NFile (contents : option string).   (** [None]: the file cannot be read *)

Definition FS := list (list string * node).

Definition key_eqb (a b : list string) : bool :=
  if list_eq_dec string_dec a b then true else false.

Fixpoint fs_find (fs : FS) (k : list string) : option node :=
  match fs with
  | [] => None
  | (k', n) :: fs' => if key_eqb k k' then Some n else fs_find fs' k
  end.

Definition fs_node (fs : FS) (k : list string) : option node :=
  match k with
  | [] => Some (NDir true)
  | _ => fs_find fs k
  end.

Definition is_dir_node (n : option node) : bool :=
  match n with Some (NDir _) => true | _ => false end.

Fixpoint walk (fs : FS) (cs : list component) (cur : list string) : option (list string) :=
  match cs with
  | [] => match fs_node fs cur with Some _ => Some cur | None => None end
  | RootDir :: cs' => walk fs cs' []
  | CurDir :: cs' => walk fs cs' cur
  | ParentDir :: cs' =>
      if is_dir_node (fs_node fs cur) then walk fs cs' (removelast cur) else None
  | Normal c :: cs' =>
      if is_dir_node (fs_node fs cur) then
        match fs_node fs (cur ++ [c]) with
        | Some _ => walk fs cs' (cur ++ [c])
        | None => None
        end
      else None
  end.

(** A path whose last raw segment is empty or "." names a directory: on a
    file it fails with ENOTDIR. *)
Definition trailing_dir_mark (p : string) : bool :=
  match rev (tagged p) with
  | (None, _) :: _ :: _ => true
  | _ => false
  end.

(** Path resolution by the kernel, for absolute paths: the canonical
    components and the node. *)
Definition lookup (fs : FS) (p : string) : option (list string * node) :=
  match components p with
  | RootDir :: cs =>
      match walk fs cs [] with
      | Some k =>
          match fs_node fs k with
          | Some (NFile c) => if trailing_dir_mark p then None else Some (k, NFile c)
          | Some n => Some (k, n)
          | None => None
          end
      | None => None
      end
  | _ => None
  end.

(** [Path::exists], [Path::is_dir], [Path::is_file] *)
Definition path_exists (fs : FS) (p : string) : bool :=
  match lookup fs p with Some _ => true | None => false end.

Definition path_is_dir (fs : FS) (p : string) : bool :=
  match lookup fs p with Some (_, NDir _) => true | _ => false end.

Definition path_is_file (fs : FS) (p : string) : bool :=
  match lookup fs p with Some (_, NFile _) => true | _ => false end.

(** [Path::canonicalize] *)
Definition canonicalize (fs : FS) (p : string) : option string :=
  match lookup fs p with
  | Some (k, _) => Some ("/" ++ join "/" k)
  | None => None
  end.

(** The names of the direct children of directory [k], in enumeration order. *)
Definition child_name (k k' : list string) : option string :=
  match rev k' with
  | c :: r => if key_eqb (rev r) k then Some c else None
  | [] => None
  end.

Definition children (fs : FS) (k : list string) : list string :=
  somes (map (fun e => child_name k (fst e)) fs).

(** [fs::read_dir]: the names of the entries; an error on anything but a
    readable directory. *)
Definition read_dir (fs : FS) (p : string) : option (list string) :=
  match lookup fs p with
  | Some (k, NDir true) => Some (children fs k)
  | _ => None
  end.

(** [fs::read] *)
Definition read_file (fs : FS) (p : string) : option string :=
  match lookup fs p with
  | Some (_, NFile (Some c)) => Some c
  | _ => None
  end.

(** ** Child processes, the connection and the monad of [handle_request] *)

(** How a child's standard input is set up ([Stdio]): inherited from the
    server (what [spawn] does unless told otherwise), the null device, or a
    pipe the server writes [data] to and then closes. *)
Inductive child_stdin : Type :=
| StdinInherit
| StdinNull
| StdinPiped (data : string).

(** What [Command] is given: program, environment and standard input. *)
Record Invocation : Type := mkInvocation {
  inv_prog : string;
  inv_env : list (string * string);
  inv_stdin : child_stdin
}.

(** What [Command::output] returns: the exit status ([None] when the child
    was killed by a signal) and the captured raw stdout and stderr bytes. *)
Record ProcOutput : Type := mkProcOutput {
  po_status : option nat;
  po_stdout : string;
  po_stderr : string
}.

Definition status_success (o : ProcOutput) : bool :=
  match po_status o with Some 0 => true | _ => false end.

(** What one connection's task sees of the outside: the canonical root
    folder, the filesystem, how a child process behaves ([None]: it could
    not be spawned), and the peer address ([None]: [peer_addr] fails). *)
Record World : Type := mkWorld {
  root : string;
  fs : FS;
  run : Invocation -> option ProcOutput;
  peer : option string
}.

(** The task's state: the bytes the client still sends after the first
    read (then end of stream), everything written to the socket, the lines
    printed by [log_connection], and the processes spawned. *)
Record St : Type := mkSt {
  st_rest : string;
  st_out : string;
  st_log : list string;
  st_spawned : list Invocation
}.

Inductive res (A : Type) : Type :=
| ROk (a : A)
| RErr          (** an [io::Error] returned with [?] *)
| RPanic.       (** the task panics *)
Arguments ROk {A} a.
Arguments RErr {A}.
Arguments RPanic {A}.

Definition M (A : Type) : Type := St -> res A * St.

Definition ret {A} (a : A) : M A := fun st => (ROk a, st).

Definition bind {A B} (m : M A) (k : A -> M B) : M B :=
  fun st => match m st with
            | (ROk a, st') => k a st'
            | (RErr, st') => (RErr, st')
            | (RPanic, st') => (RPanic, st')
            end.

Notation "x <- m ;; k" := (bind m (fun x => k)) (at level 61, m at next level, right associativity).
Notation "m ;;; k" := (bind m (fun _ => k)) (at level 61, right associativity).

Definition panic {A} : M A := fun st => (RPanic, st).

(** [match fut.await { Ok(x) => .., Err(_) => .. }] *)
Definition catch {A} (m : M A) : M (option A) :=
  fun st => match m st with
            | (ROk a, st') => (ROk (Some a), st')
            | (RErr, st') => (ROk None, st')
            | (RPanic, st') => (RPanic, st')
            end.

Definition set_rest (r : string) (st : St) : St :=
  mkSt r (st_out st) (st_log st) (st_spawned st).

(** [stream.write_all(bytes)] *)
Definition write_all (s : string) : M unit :=
  fun st => (ROk tt, mkSt (st_rest st) (st_out st ++ s) (st_log st) (st_spawned st)).

(** [stream.read_exact(&mut vec![0; n])]: fails at end of stream. *)
Definition read_exact (n : N) : M string :=
  fun st =>
    let r := st_rest st in
    if N.leb n (N.of_nat (String.length r))
    then (ROk (substring 0 (N.to_nat n) r),
          set_rest (substring (N.to_nat n) (String.length r) r) st)
    else (RErr, set_rest EmptyString st).

(** [println!] *)
Definition println (line : string) : M unit :=
  fun st => (ROk tt, mkSt (st_rest st) (st_out st) (st_log st ++ [line]) (st_spawned st)).

(** [command.output().await?] *)
Definition output (w : World) (inv : Invocation) : M ProcOutput :=
  fun st =>
    let st' := mkSt (st_rest st) (st_out st) (st_log st) (st_spawned st ++ [inv]) in
    match run w inv with
    | Some o => (ROk o, st')
    | None => (RErr, st')
    end.

(** ** The server *)

(** [HashMap<String, String>] as an association list with unique keys. *)
Definition hmap := list (string * string).

Definition hmap_insert (k v : string) (m : hmap) : hmap :=
  (k, v) :: filter (fun e => negb (String.eqb (fst e) k)) m.

Fixpoint hmap_get (k : string) (m : hmap) : option string :=
  match m with
  | [] => None
  | (k', v) :: m' => if String.eqb k k' then Some v else hmap_get k m'
  end.

Definition dquote : string := String (ascii_of_nat 34) EmptyString.

(** The line [log_connection] prints. *)
Definition log_line (peer_ip : option string) (method requested_path status_code status_text : string)
  : string :=
  match peer_ip with
  | Some remote_ip =>
      method ++ " " ++ remote_ip ++ " " ++ requested_path ++ " -> "
             ++ status_code ++ " (" ++ status_text ++ ")"
  | None =>
      method ++ " unknown " ++ requested_path ++ " -> "
             ++ status_code ++ " (" ++ status_text ++ ")"
  end.

(** [log_connection] *)
Definition log_connection (w : World) (method requested_path status_code status_text : string) : M unit :=
  println (log_line (peer w) method requested_path status_code status_text).

(** The header block written by [send_response] and by the static-file
    branch of [handle_request] (both use this format string). *)
Definition response_head (http_version status_code status_text content_type : string) (len : nat) : string :=
  http_version ++ " " ++ status_code ++ " " ++ status_text ++ crlf
  ++ "Content-Type: " ++ content_type ++ crlf
  ++ "Content-Length: " ++ dec len ++ crlf
  ++ "Connection: close" ++ crlf ++ crlf.

(** What [send_response] writes. *)
Definition response (http_version status_code status_text content_type body : string) : string :=
  response_head http_version status_code status_text content_type (String.length body) ++ body.

(** [send_response] *)
Definition send_response (http_version status_code status_text content_type body : string) : M unit :=
  write_all (response http_version status_code status_text content_type body).

(** [get_mime_type] *)
Definition get_mime_type (p : string) : string :=
  match extension p with
  | Some "txt" => "text/plain; charset=utf-8"
  | Some "html" => "text/html; charset=utf-8"
  | Some "css" => "text/css; charset=utf-8"
  | Some "js" => "text/javascript; charset=utf-8"
  | Some "jpg" | Some "jpeg" => "image/jpeg"
  | Some "png" => "image/png"
  | Some "zip" => "application/zip"
  | _ => "application/octet-stream"
  end.

(** [is_forbidden_file] *)
Definition forbidden_patterns : list string := ["forbidden"; "restricted_area.txt"; "scripts/../"].

Definition is_forbidden_file (fs : FS) (file_path root_folder : string) : bool :=
  match canonicalize fs file_path with
  | None => true
  | Some canonical_path =>
      if negb (path_starts_with canonical_path root_folder) then true
      else if existsb (fun pattern => contains file_path pattern) forbidden_patterns then true
      else if match file_name file_path with
              | Some s => starts_with_char "."%char s
              | None => false
              end then true
      else match parent_components file_path with
           | Some parent =>
               existsb (fun pattern => comps_prefix (rev (components pattern)) (rev parent))
                       forbidden_patterns
           | None => false
           end
  end.

(** [combine_query_and_post_data] *)
Definition combine_query_and_post_data (query_string post_data : option string) : string :=
  let combined := match query_string with Some q => q | None => EmptyString end in
  match post_data with
  | Some post => (if String.eqb combined EmptyString then combined else combined ++ "&") ++ post
  | None => combined
  end.

(** [generate_directory_listing].  The link text is
    [file_name().unwrap_or_default().to_str().unwrap_or_default()]: empty
    for a name that is not valid UTF-8; the href is [display()] of the
    relative path, which decodes it lossily. *)
Definition listing_item (path root_folder name : string) : string :=
  let p := path_join path name in
  let os_name := match file_name p with Some s => s | None => EmptyString end in
  let filename := if utf8_valid os_name then os_name else EmptyString in
  let relative_path := match strip_prefix p root_folder with Some r => r | None => p end in
  "<li><a href=" ++ dquote ++ from_utf8_lossy relative_path ++ dquote ++ ">" ++ filename ++ "</a></li>".

Definition listing_open : string := "<html><body><h1>Directory listing</h1><ul>".
Definition listing_close : string := "</ul></body></html>".

Definition generate_directory_listing (fs : FS) (path root_folder : string) : option string :=
  match read_dir fs path with
  | None => None
  | Some names =>
      Some (listing_open ++ String.concat "" (map (listing_item path root_folder) names) ++ listing_close)
  end.

(** [execute_script] *)
Definition add_query_params (query_str : string) (env_vars : hmap) : hmap :=
  fold_left (fun env param =>
               match split_once "="%char param with
               | Some (key, value) => hmap_insert ("Query_" ++ key) value env
               | None => env
               end)
            (split_char "&"%char query_str) env_vars.

Definition script_env (headers : hmap) (method requested_path : string)
  (query_string combined_query : option string) : hmap :=
  let env_vars := fold_left (fun env kv => hmap_insert (fst kv) (snd kv) env) headers [] in
  let env_vars := hmap_insert "Method" method env_vars in
  let env_vars := hmap_insert "Path" requested_path env_vars in
  let env_vars := match query_string with
                  | Some query_str => add_query_params query_str env_vars
                  | None => env_vars
                  end in
  let env_vars := if String.eqb method "POST" then
                    match combined_query with
                    | Some data => add_query_params data env_vars
                    | None => env_vars
                    end
                  else env_vars in
  match combined_query with
  | Some query_str => add_query_params query_str env_vars
  | None => env_vars
  end.

Fixpoint take_header_lines (ls : list string) : list string :=
  match ls with
  | [] => []
  | l :: ls' => if String.eqb l EmptyString then [] else l :: take_header_lines ls'
  end.

(** [&s[i..]]: panics unless [i] is a character boundary of [s]. *)
Definition slice_from (s : string) (i : nat) : option string :=
  if Nat.ltb (String.length s) i then None
  else match get i s with
       | Some c => if is_cont c then None else Some (substring i (String.length s) s)
       | None => Some EmptyString
       end.

Definition lf2 : string := String nl (String nl EmptyString).

(** Lines 448-477 of [execute_script]: the response built from the exit
    status and the (decoded) standard output. [None]: the slice panics. *)
Definition script_response (http_version : string) (success : bool) (stdout : string)
  : option (string * string * string) :=
  let status_code := if success then "200" else "500" in
  let status_text := if success then "OK" else "Internal Server Error" in
  let response_headers :=
    app [http_version ++ " " ++ status_code ++ " " ++ status_text; "Connection: close"]
        (take_header_lines (lines stdout)) in
  let body_start := match find_str lf2 stdout with Some i => i | None => 0 end + 2 in
  match slice_from stdout body_start with
  | None => None
  | Some body =>
      Some (status_code, status_text, join crlf response_headers ++ crlf ++ crlf ++ body)
  end.

Definition execute_script (w : World) (script_path http_version : string) (headers : hmap)
  (method requested_path : string) (query_string combined_query : option string)
  : M (string * string) :=
  let env_vars := script_env headers method requested_path query_string combined_query in
  (* tokio's [Command::output] pipes stdout and stderr only: the child
     inherits the server's standard input *)
  o <- output w (mkInvocation script_path env_vars StdinInherit) ;;
  let stdout := from_utf8_lossy (po_stdout o) in
  match script_response http_version (status_success o) stdout with
  | None => panic
  | Some (status_code, status_text, response) =>
      write_all response ;;; ret (status_code, status_text)
  end.

(** ** [handle_request] *)

Record Request : Type := mkRequest {
  req_method : string;
  req_full_path : string;
  req_version : string;
  req_lines : list string   (** [lines[1..]] *)
}.

(** Lines 52-66: decoding the first buffer and splitting the request line. *)
Definition parse_request (buffer : string) : option Request :=
  let request := if utf8_valid buffer then buffer else EmptyString in
  match lines request with
  | [] => None
  | request_line :: rest =>
      match split_whitespace request_line with
      | method :: full_path :: http_version :: _ =>
          Some (mkRequest method full_path http_version rest)
      | _ => None
      end
  end.

(** Lines 69-73 *)
Definition split_target (full_path : string) : string * option string :=
  match find_char "?"%char full_path with
  | Some idx => (substring 0 idx full_path,
                 Some (substring (S idx) (String.length full_path) full_path))
  | None => (full_path, None)
  end.

(** Lines 78-83 (and 136-141) *)
Definition collect_headers (ls : list string) : hmap :=
  fold_left (fun headers line =>
               match split_once ":"%char line with
               | Some (key, value) => hmap_insert (trim key) (trim value) headers
               | None => headers
               end) ls [].

Definition content_length (headers : hmap) : N :=
  match hmap_get "Content-Length" headers with
  | Some len => match parse_usize len with Some n => n | None => 0%N end
  | None => 0%N
  end.

(** Lines 85-97 (and 144-156) *)
Definition read_post_data (method : string) (headers : hmap) : M (option string) :=
  if String.eqb method "POST" then
    data <- read_exact (content_length headers) ;;
    ret (Some (from_utf8_lossy data))
  else ret None.

Definition file_path_of (root_folder requested_path : string) : string :=
  path_join root_folder (trim_start_matches "/"%char requested_path).

Definition respond (w : World) (method requested_path http_version status_code status_text
  content_type body : string) : M unit :=
  send_response http_version status_code status_text content_type body ;;;
  log_connection w method requested_path status_code status_text.

Definition not_found (w : World) (method requested_path http_version : string) : M unit :=
  respond w method requested_path http_version "404" "Not Found" "text/plain" "<html>404 Not Found</html>".

Definition forbidden (w : World) (method requested_path http_version : string) : M unit :=
  respond w method requested_path http_version "403" "Forbidden" "text/plain; charset=utf-8"
    "<html>403 Forbidden</html>".

Definition internal_error (w : World) (method requested_path http_version : string) : M unit :=
  respond w method requested_path http_version "500" "Internal Server Error" "text/plain"
    "<html>500 Internal Server Error</html>".

Definition dispatch (w : World) (rq : Request) : M unit :=
  let method := req_method rq in
  let http_version := req_version rq in
  let '(requested_path, query_string) := split_target (req_full_path rq) in
  let file_path := file_path_of (root w) requested_path in
  let headers := collect_headers (req_lines rq) in
  post_data <- read_post_data method headers ;;
  let combined_query := combine_query_and_post_data query_string post_data in
  if negb (path_exists (fs w) file_path) then
    not_found w method requested_path http_version
  else if is_forbidden_file (fs w) file_path (root w) then
    forbidden w method requested_path http_version
  else
  let headers := collect_headers (req_lines rq) in
  post_data <- read_post_data method headers ;;
  if String.eqb method "GET" || String.eqb method "POST" then
    if path_starts_with file_path (path_join (root w) "forbidden") then
      forbidden w method requested_path http_version
    else if path_starts_with file_path (path_join (root w) "scripts") && path_is_file (fs w) file_path then
      r <- catch (execute_script w file_path http_version headers method requested_path
                                  query_string post_data) ;;
      st <- match r with
            | Some st => ret st
            | None =>
                send_response http_version "500" "Internal Server Error" "text/plain"
                  "<html>500 Internal Server Error</html>" ;;;
                ret ("500", "Internal Server Error")
            end ;;
      log_connection w method requested_path (fst st) (snd st)
    else if path_is_dir (fs w) file_path then
      match generate_directory_listing (fs w) file_path (root w) with
      | Some html =>
          respond w method requested_path http_version "200" "OK" "text/html; charset=utf-8" html
      | None => internal_error w method requested_path http_version
      end
    else if path_exists (fs w) file_path && path_is_file (fs w) file_path then
      match read_file (fs w) file_path with
      | Some contents =>
          let mime_type := get_mime_type file_path in
          write_all (response_head http_version "200" "OK" mime_type (String.length contents)) ;;;
          write_all contents ;;;
          log_connection w method requested_path "200" "OK"
      | None => not_found w method requested_path http_version
      end
    else not_found w method requested_path http_version
  else
    respond w method requested_path http_version "405" "Method Not Allowed" "text/plain"
      "<html>405 Method Not Allowed</html>".

(** [handle_request]: [buffer] is what the first [stream.read] returned
    (at most 4096 bytes), the rest of the connection is in the state. *)
Definition handle_request (w : World) (buffer : string) : M unit :=
  if Nat.eqb (String.length buffer) 0 then ret tt
  else match parse_request buffer with
       | None => ret tt
       | Some rq => dispatch w rq
       end.

Definition init (rest : string) : St := mkSt rest EmptyString [] [].

(** ** [main]

    [str::parse::<u16>()]: as for [usize], with 65535 as the largest value. *)
Definition u16_max : N := 65535%N.

Fixpoint parse_digits_u16 (s : string) (acc : N) : option N :=
  match s with
  | EmptyString => Some acc
  | String c s' =>
      let n := byte_nat c in
      if Nat.leb 48 n && Nat.leb n 57 then
        let acc' := (acc * 10 + N.of_nat (n - 48))%N in
        if N.ltb u16_max acc' then None else parse_digits_u16 s' acc'
      else None
  end.

Definition parse_u16 (s : string) : option N :=
  let body := match s with
              | String c s' => if Ascii.eqb c "+"%char then s' else s
              | EmptyString => s
              end in
  match body with
  | EmptyString => None
  | _ => parse_digits_u16 body 0
  end.

(** How [main] starts, up to [TcpListener::bind]: the usage message and
    [exit(1)], a panic of one of the two [expect] calls, or serving the
    canonical root folder on the port.  [cwd] is the working directory,
    against which [canonicalize] resolves a relative root; an empty path
    does not resolve.  (The two startup lines printed before [bind] are not
    modelled.) *)
Inductive startup : Type :=
| Usage
| StartPanic
| Listen (port : N) (root_folder : string).

Definition main_start (fs : FS) (cwd : string) (args : list string) : startup :=
  if negb (Nat.eqb (length args) 3) then Usage
  else match parse_u16 (nth 1 args EmptyString) with
       | None => StartPanic
       | Some port =>
           let arg := nth 2 args EmptyString in
           match (if String.eqb arg EmptyString then None else canonicalize fs (path_join cwd arg)) with
           | None => StartPanic
           | Some root_folder => Listen port root_folder
           end
       end.

(** ** Predicates and a small example world used by the properties *)

(** The body can be read: the request is no POST, or the connection still
    holds at least Content-Length bytes. *)
Definition post_body_available (rq : Request) (rest : string) : Prop :=
  req_method rq <> "POST" \/
  (content_length (collect_headers (req_lines rq)) <= N.of_nat (String.length rest))%N.

(** A plain path segment: a non-empty name without '/' that is neither
    "." nor "..", as every entry name of a real directory is. *)
Fixpoint no_slash (s : string) : bool :=
  match s with
  | EmptyString => true
  | String a s' => negb (Ascii.eqb slash a) && no_slash s'
  end.

Definition plain_segment (s : string) : bool :=
  no_slash s && negb (String.eqb s "") && negb (String.eqb s ".") && negb (String.eqb s "..").

(** A computation only spawns processes that inherit the server's standard
    input. *)
Definition spawns_inherit_stdin {A} (m : M A) : Prop :=
  forall st, exists new,
    st_spawned (snd (m st)) = app (st_spawned st) new /\ Forall (fun i => inv_stdin i = StdinInherit) new.

(** The two shapes of response the server writes: the [response_head]
    format (Content-Type, Content-Length of the body, Connection: close),
    and the response [script_response] builds from the exit status and the
    decoded stdout of a process run in [w]. *)
Definition http_response (w : World) (R : string) : Prop :=
  (exists v c t ct body, R = response_head v c t ct (String.length body) ++ body) \/
  (exists v inv o c t,
      run w inv = Some o /\
      script_response v (status_success o) (from_utf8_lossy (po_stdout o)) = Some (c, t, R)).

(** A computation writes nothing to the socket. *)
Definition silent {A} (m : M A) : Prop :=
  forall st, st_out (snd (m st)) = st_out st.

(** A computation writes at most one response to the socket. *)
Definition writes_once {A} (w : World) (m : M A) : Prop :=
  forall st, exists R, st_out (snd (m st)) = st_out st ++ R /\ (R = "" \/ http_response w R).

(** [k] names a node, every proper prefix of [k] is a directory, and
    every name on the way is a plain segment. *)
Definition dirs_along (fs : FS) (k : list string) : Prop :=
  Forall (fun s => plain_segment s = true) k /\
  (forall j, j < length k -> is_dir_node (fs_node fs (firstn j k)) = true) /\
  fs_node fs k <> None.

(** A computation leaves the unread bytes of the connection alone. *)
Definition keeps_rest {A} (m : M A) : Prop :=
  forall st, st_rest (snd (m st)) = st_rest st.

(** A computation adds nothing to a list-valued part [f] of the state
    (the log, the spawned processes), or adds at most one element, which
    satisfies [P]. *)
Definition appends_none {A X} (f : St -> list X) (m : M A) : Prop :=
  forall st, f (snd (m st)) = f st.

Definition appends_one {A X} (f : St -> list X) (P : X -> Prop) (m : M A) : Prop :=
  forall st, exists new, f (snd (m st)) = app (f st) new /\ length new <= 1 /\ Forall P new.

(** An example deployment: root "/srv" holding an index page, a directory
    [sub] with a subdirectory [d], and a script [scripts/s] whose process
    prints a header block and exits with status 1, writing "oops" to
    stderr. *)
Definition demo_fs : FS :=
  [(["srv"], NDir true);
   (["srv"; "index.html"], NFile (Some "hi"));
   (["srv"; "sub"], NDir true);
   (["srv"; "sub"; "d"], NDir true);
   (["srv"; "scripts"], NDir true);
   (["srv"; "scripts"; "s"], NFile (Some "#!/bin/sh"))].

Definition demo_output : ProcOutput :=
  mkProcOutput (Some 1) ("X-Script: yes" ++ lf2 ++ "out") "oops".

Definition demo_world : World :=
  mkWorld "/srv" demo_fs (fun _ => Some demo_output) (Some "10.0.0.7").

(** A request with the header lines [hs] and an empty line. *)
Definition request_text (request_line : string) (hs : list string) : string :=
  String.concat "" (map (fun l => l ++ crlf) (request_line :: hs)) ++ crlf.

(** * Properties *)

(** ** Reading the POST body *)

Lemma set_rest_same (st : St) : set_rest (st_rest st) st = st.
Proof. destruct st; reflexivity. Qed.

Lemma read_post_data_ok (method : string) (headers : hmap) (st : St) :
  method <> "POST" \/ (content_length headers <= N.of_nat (String.length (st_rest st)))%N ->
  exists pd rest', read_post_data method headers st = (ROk pd, set_rest rest' st).
Proof.
  intros H. unfold read_post_data.
  destruct (String.eqb method "POST") eqn:E.
  - apply String.eqb_eq in E.
    destruct H as [H | H]; [contradiction |].
    unfold bind, read_exact.
    apply N.leb_le in H. rewrite H.
    eexists. eexists. reflexivity.
  - exists None, (st_rest st). rewrite set_rest_same. reflexivity.
Qed.

Lemma read_post_data_not_post (method : string) (headers : hmap) (st : St) :
  method <> "POST" -> read_post_data method headers st = (ROk None, st).
Proof.
  intros H. unfold read_post_data.
  destruct (String.eqb method "POST") eqn:E; [apply String.eqb_eq in E; contradiction |].
  reflexivity.
Qed.

Lemma substring_length (s : string) (n m : nat) :
  String.length s <= n + m -> String.length (substring n m s) = String.length s - n.
Proof.
  revert n m. induction s as [| c s IH]; intros n m Hle.
  - destruct n, m; reflexivity.
  - destruct n as [| n].
    + destruct m as [| m]; [simpl in Hle; lia |].
      simpl. rewrite IH by (simpl in Hle; lia). simpl. lia.
    + simpl. rewrite IH by (simpl in Hle; lia). reflexivity.
Qed.

(** ** The first two branches of [dispatch]: existence, then the guard *)

Section EarlyBranches.
Variable w : World.
Variable rq : Request.
Variable st : St.
Hypothesis Hbody : post_body_available rq (st_rest st).

Let rp := fst (split_target (req_full_path rq)).
Let fp := file_path_of (root w) rp.

Lemma dispatch_missing :
  path_exists (fs w) fp = false ->
  exists rest',
    dispatch w rq st =
      (ROk tt, mkSt rest'
                 (st_out st ++ response (req_version rq) "404" "Not Found" "text/plain"
                                         "<html>404 Not Found</html>")
                 (st_log st ++ [log_line (peer w) (req_method rq) rp "404" "Not Found"])
                 (st_spawned st)).
Proof.
  intros Hex. unfold fp, rp in *.
  unfold dispatch.
  destruct (split_target (req_full_path rq)) as [requested_path query_string]. simpl in Hex |- *.
  destruct (read_post_data_ok (req_method rq) (collect_headers (req_lines rq)) st Hbody)
    as (pd & rest' & E).
  exists rest'. unfold bind at 1. rewrite E. rewrite Hex. reflexivity.
Qed.

Lemma dispatch_guarded :
  path_exists (fs w) fp = true ->
  is_forbidden_file (fs w) fp (root w) = true ->
  exists rest',
    dispatch w rq st =
      (ROk tt, mkSt rest'
                 (st_out st ++ response (req_version rq) "403" "Forbidden" "text/plain; charset=utf-8"
                                         "<html>403 Forbidden</html>")
                 (st_log st ++ [log_line (peer w) (req_method rq) rp "403" "Forbidden"])
                 (st_spawned st)).
Proof.
  intros Hex Hf. unfold fp, rp in *.
  unfold dispatch.
  destruct (split_target (req_full_path rq)) as [requested_path query_string]. simpl in Hex, Hf |- *.
  destruct (read_post_data_ok (req_method rq) (collect_headers (req_lines rq)) st Hbody)
    as (pd & rest' & E).
  exists rest'. unfold bind at 1. rewrite E. rewrite Hex, Hf. reflexivity.
Qed.

End EarlyBranches.

Lemma handle_request_dispatch (w : World) (buffer : string) (rq : Request) :
  String.length buffer <> 0 -> parse_request buffer = Some rq ->
  handle_request w buffer = dispatch w rq.
Proof.
  intros Hn Hp. unfold handle_request.
  apply Nat.eqb_neq in Hn. rewrite Hn, Hp. reflexivity.
Qed.

(** ** C10: an empty first read or a non-UTF-8 buffer ends the task quietly *)

(** Claim C10: when the first read returns no bytes, or the bytes are not
    valid UTF-8 (the request is then read as ""), [handle_request] returns
    [Ok(())] having written nothing to the socket and printed no log line;
    the state of the connection is left exactly as it was. *)
Theorem handle_request_silent_on_empty_or_invalid (w : World) (buffer : string) (st : St)
  (H : String.length buffer = 0 \/ utf8_valid buffer = false) :
  handle_request w buffer st = (ROk tt, st).
Proof.
  unfold handle_request.
  destruct H as [H | H].
  - rewrite H. reflexivity.
  - destruct (Nat.eqb (String.length buffer) 0); [reflexivity |].
    unfold parse_request. rewrite H. reflexivity.
Qed.

Lemma handle_request_silent_on_empty_or_invalid_witness :
  let w := mkWorld "/srv" [] (fun _ => None) (Some "127.0.0.1") in
  let buffer := String (ascii_of_nat 255) "GET / HTTP/1.0" in
  (String.length buffer = 0 \/ utf8_valid buffer = false) /\
  handle_request w buffer (init "") = (ROk tt, init "").
Proof.
  intros w buffer. split.
  - right. vm_compute. reflexivity.
  - apply handle_request_silent_on_empty_or_invalid. right. vm_compute. reflexivity.
Defined.

(** ** C9: the MIME table *)

(** Claim C9, counterexample: ".json" is not in the table of
    [get_mime_type]; a JSON file is served as application/octet-stream. *)
Lemma get_mime_type_json_counterexample :
  get_mime_type "/srv/data.json" = "application/octet-stream"
  /\ get_mime_type "/srv/page.htm" = "application/octet-stream"
  /\ get_mime_type "/srv/img.gif" = "application/octet-stream".
Proof. vm_compute. repeat split. Qed.

(** Claim C9, as the code has it: the extension of the file name is looked
    up case-sensitively in a table of eight entries (txt, html, css and js
    carrying "; charset=utf-8"); every other extension, among them htm,
    json and gif, and a missing extension give application/octet-stream. *)
Theorem get_mime_type_table (p : string) :
  get_mime_type p =
    match extension p with
    | Some e =>
        if String.eqb e "txt" then "text/plain; charset=utf-8"
        else if String.eqb e "html" then "text/html; charset=utf-8"
        else if String.eqb e "css" then "text/css; charset=utf-8"
        else if String.eqb e "js" then "text/javascript; charset=utf-8"
        else if String.eqb e "jpg" || String.eqb e "jpeg" then "image/jpeg"
        else if String.eqb e "png" then "image/png"
        else if String.eqb e "zip" then "application/zip"
        else "application/octet-stream"
    | None => "application/octet-stream"
    end.
Proof.
  unfold get_mime_type.
  destruct (extension p) as [e |]; [| reflexivity].
  repeat first
    [ reflexivity
    | progress simpl
    | match goal with
      | b : bool |- _ => destruct b
      | a : ascii |- _ => destruct a
      | s : string |- _ => destruct s
      end ].
Qed.

(** ** C1: the guard is consulted only for existing targets *)




(** ** C5: methods other than GET and POST *)




(** ** C4: the POST body is read twice *)

(** Claim C4, failing input: a POST of the 3-byte body "a=1" to the
    script: the body is read before the existence check and once more
    after the guard; the second read hits the end of the stream, and the
    task ends with an error, writing nothing. When the client sends six
    bytes, all six are consumed and only the second half reaches the
    script. *)
Lemma post_body_consumed_twice :
  handle_request demo_world
    (request_text "POST /scripts/s HTTP/1.0" ["Content-Length: 3"]) (init "a=1") =
    (RErr, mkSt "" "" [] []) /\
  let st' := snd (handle_request demo_world
                   (request_text "POST /scripts/s HTTP/1.0" ["Content-Length: 3"]) (init "a=1b=2")) in
    st_rest st' = "" /\
    map inv_env (st_spawned st') =
      [[("Query_b", "2"); ("Path", "/scripts/s"); ("Method", "POST"); ("Content-Length", "3")]].
Proof.
  split; vm_compute; [reflexivity | split; reflexivity].
Qed.

(** The same for every POST to an existing target that the guard admits:
    when the connection carries at least Content-Length but fewer than
    twice Content-Length bytes after the first buffer (for instance exactly
    the body), the handler drains the connection and fails at the second
    read, without a response or a log line. *)
Theorem handle_request_post_second_read_fails (w : World) (buffer : string) (rq : Request) (st : St)
  (Hn : String.length buffer <> 0) (Hp : parse_request buffer = Some rq)
  (Hpost : req_method rq = "POST") :
  let n := content_length (collect_headers (req_lines rq)) in
  let fp := file_path_of (root w) (fst (split_target (req_full_path rq))) in
  path_exists (fs w) fp = true -> is_forbidden_file (fs w) fp (root w) = false ->
  (n <= N.of_nat (String.length (st_rest st)) < 2 * n)%N ->
  handle_request w buffer st = (RErr, mkSt "" (st_out st) (st_log st) (st_spawned st)).
Proof.
  cbv zeta. intros Hex Hf Hlen.
  rewrite (handle_request_dispatch w buffer rq Hn Hp).
  unfold dispatch.
  destruct (split_target (req_full_path rq)) as [requested_path query_string]. simpl in Hex, Hf |- *.
  rewrite Hpost in *.
  unfold bind at 1. unfold read_post_data at 1. simpl (String.eqb "POST" "POST"). cbv iota.
  unfold bind at 1. unfold read_exact at 1.
  set (n := content_length (collect_headers (req_lines rq))) in *.
  destruct Hlen as [Hlo Hhi].
  apply N.leb_le in Hlo. rewrite Hlo. simpl.
  rewrite Hex, Hf. simpl.
  unfold bind at 1. unfold read_post_data at 1. simpl (String.eqb "POST" "POST"). cbv iota.
  unfold bind at 1. unfold read_exact at 1. fold n. simpl st_rest.
  rewrite substring_length by lia.
  replace (N.leb n (N.of_nat (String.length (st_rest st) - N.to_nat n))) with false
    by (symmetry; apply N.leb_gt; lia).
  destruct st; reflexivity.
Qed.

Lemma handle_request_post_second_read_fails_witness :
  let buffer := request_text "POST /index.html HTTP/1.0" ["Content-Length: 3"] in
  exists rq,
    parse_request buffer = Some rq /\
    handle_request demo_world buffer (init "a=1") = (RErr, mkSt "" "" [] []).
Proof.
  intros buffer.
  assert (Hp : parse_request buffer =
                 Some (mkRequest "POST" "/index.html" "HTTP/1.0" ["Content-Length: 3"; ""]))
    by (vm_compute; reflexivity).
  eexists. split; [exact Hp |].
  rewrite (handle_request_post_second_read_fails demo_world buffer
             (mkRequest "POST" "/index.html" "HTTP/1.0" ["Content-Length: 3"; ""]) (init "a=1")
             ltac:(vm_compute; discriminate) Hp eq_refl
             ltac:(vm_compute; reflexivity) ltac:(vm_compute; reflexivity)
             ltac:(change (3 <= 3 < 2 * 3)%N; lia)).
  reflexivity.
Defined.

(** ** String lemmas for the script response *)

Lemma string_app_assoc (a b c : string) : (a ++ b) ++ c = a ++ (b ++ c).
Proof. induction a as [| x a IH]; simpl; [reflexivity | rewrite IH; reflexivity]. Qed.

Lemma string_app_nil_r (a : string) : a ++ "" = a.
Proof. induction a as [| x a IH]; simpl; [reflexivity | rewrite IH; reflexivity]. Qed.

Lemma prefix_app (a b : string) : prefix a (a ++ b) = true.
Proof.
  induction a as [| x a IH]; [destruct b; reflexivity |].
  simpl. destruct (ascii_dec x x); [exact IH | contradiction].
Qed.

Lemma concat_empty_cons (a : string) (l : list string) :
  String.concat "" (a :: l) = a ++ String.concat "" l.
Proof. destruct l; simpl; [rewrite string_app_nil_r |]; reflexivity. Qed.

Lemma join_cons (sep x : string) (l : list string) :
  join sep (x :: l) = x ++ String.concat "" (map (fun y => sep ++ y) l).
Proof.
  revert x. induction l as [| y l IH]; intros x.
  - simpl. rewrite string_app_nil_r. reflexivity.
  - change (join sep (x :: y :: l)) with (x ++ sep ++ join sep (y :: l)).
    rewrite IH. rewrite map_cons, concat_empty_cons.
    rewrite string_app_assoc. reflexivity.
Qed.

Lemma join_two_app (sep a b : string) (l : list string) :
  join sep (app [a; b] l) = a ++ sep ++ b ++ String.concat "" (map (fun y => sep ++ y) l).
Proof.
  change (app [a; b] l) with (a :: b :: l).
  change (join sep (a :: b :: l)) with (a ++ sep ++ join sep (b :: l)).
  rewrite join_cons. reflexivity.
Qed.

Lemma get_app_length (h s : string) (n : nat) : get (String.length h + n) (h ++ s) = get n s.
Proof. induction h as [| x h IH]; simpl; [reflexivity | exact IH]. Qed.

Lemma substring_app_length (h s : string) (n m : nat) :
  substring (String.length h + n) m (h ++ s) = substring n m s.
Proof.
  induction h as [| x h IH]; [reflexivity | exact IH].
Qed.

Lemma substring_0_full (s : string) (m : nat) : String.length s <= m -> substring 0 m s = s.
Proof.
  revert m. induction s as [| x s IH]; intros m Hm.
  - destruct m; reflexivity.
  - destruct m as [| m]; [simpl in Hm; lia |].
    simpl. rewrite IH by (simpl in Hm; lia). reflexivity.
Qed.

Lemma string_length_app (a b : string) : String.length (a ++ b) = String.length a + String.length b.
Proof. induction a as [| x a IH]; simpl; [reflexivity | rewrite IH; reflexivity]. Qed.

Lemma prefix_empty (s : string) : prefix "" s = true.
Proof. destruct s; reflexivity. Qed.

Lemma prefix_lf2_cons (c : ascii) (x y : string) :
  get 0 x = get 0 y -> prefix lf2 (String c x) = prefix lf2 (String c y).
Proof.
  intros Hxy. unfold lf2. cbn [prefix].
  destruct (ascii_dec nl c); [| reflexivity].
  destruct x as [| a x], y as [| b y]; try discriminate; [reflexivity |].
  simpl in Hxy. injection Hxy as ->. cbn [prefix].
  rewrite !prefix_empty. reflexivity.
Qed.

Lemma find_str_cons (pat : string) (c : ascii) (s : string) :
  find_str pat (String c s) = if prefix pat (String c s) then Some 0 else option_map S (find_str pat s).
Proof. reflexivity. Qed.

(** The first "\n\n" of [h ++ "\n\n" ++ b] is the one after [h], when
    [h ++ "\n"] holds none. *)
Lemma find_lf2_first (h b : string) :
  find_str lf2 (h ++ String nl EmptyString) = None -> find_str lf2 (h ++ lf2 ++ b) = Some (String.length h).
Proof.
  induction h as [| c h IH]; intros Hnone.
  - simpl. unfold lf2. simpl.
    destruct (ascii_dec nl nl); [| contradiction]. rewrite prefix_empty. reflexivity.
  - change (find_str lf2 (String c (h ++ String nl EmptyString)) = None) in Hnone.
    change (find_str lf2 (String c (h ++ lf2 ++ b)) = Some (S (String.length h))).
    rewrite find_str_cons in Hnone |- *.
    rewrite (prefix_lf2_cons c (h ++ lf2 ++ b) (h ++ String nl EmptyString))
      by (destruct h; reflexivity).
    destruct (prefix lf2 (String c (h ++ String nl EmptyString))); [discriminate |].
    destruct (find_str lf2 (h ++ String nl EmptyString)) eqn:E; [discriminate |].
    rewrite IH by reflexivity. reflexivity.
Qed.

Lemma take_header_lines_all (ls : list string) :
  (forall l, In l ls -> l <> EmptyString) -> take_header_lines ls = ls.
Proof.
  induction ls as [| l ls IH]; intros H; simpl; [reflexivity |].
  destruct (String.eqb l EmptyString) eqn:E.
  - apply String.eqb_eq in E. exfalso. apply (H l); [left; reflexivity | exact E].
  - rewrite IH; [reflexivity |]. intros l' Hl'. apply H. right. exact Hl'.
Qed.

Lemma script_response_eq (http_version : string) (success : bool) (stdout : string) :
  script_response http_version success stdout =
    match slice_from stdout (match find_str lf2 stdout with Some i => i | None => 0 end + 2) with
    | None => None
    | Some body =>
        Some (if success then "200" else "500", if success then "OK" else "Internal Server Error",
              ((http_version ++ " " ++ (if success then "200" else "500") ++ " "
                  ++ (if success then "OK" else "Internal Server Error"))
               ++ crlf ++ "Connection: close"
               ++ String.concat "" (map (fun l => crlf ++ l) (take_header_lines (lines stdout))))
              ++ crlf ++ crlf ++ body)
    end.
Proof.
  unfold script_response. cbv zeta.
  destruct (slice_from stdout _); [| reflexivity].
  rewrite join_two_app. repeat rewrite string_app_assoc. reflexivity.
Qed.

Lemma script_response_status (http_version : string) (success : bool) (stdout code text resp : string) :
  script_response http_version success stdout = Some (code, text, resp) ->
  code = (if success then "200" else "500") /\
  text = (if success then "OK" else "Internal Server Error").
Proof.
  rewrite script_response_eq. destruct (slice_from _ _); [| discriminate].
  intros E. injection E as Ec Et _. split; symmetry; assumption.
Qed.

(** ** C6: how the script's standard output becomes the response *)

(** Claim C6, counterexample: an output without a blank line is not used
    whole as the body: its line is sent as a header line, and the body
    starts two bytes in. *)
Lemma script_output_without_blank_line :
  script_response "HTTP/1.0" true "Hello, world" =
    Some ("200", "OK", "HTTP/1.0 200 OK" ++ crlf ++ "Connection: close" ++ crlf ++ "Hello, world"
                         ++ crlf ++ crlf ++ "llo, world").
Proof. vm_compute. reflexivity. Qed.

(** Claim C6, as the code has it: the lines of stdout before its first
    empty line are sent as header lines after "Connection: close" (so
    every line is, when none is empty); when the output is [h ++ "\n\n" ++ b]
    with the first "\n\n" right after [h], the body is exactly [b]. *)
Theorem script_response_headers_and_body (http_version : string) (success : bool) (stdout : string) :
  let status_line := http_version ++ " " ++ (if success then "200" else "500") ++ " "
                     ++ (if success then "OK" else "Internal Server Error") in
  let head := status_line ++ crlf ++ "Connection: close"
              ++ String.concat "" (map (fun l => crlf ++ l) (take_header_lines (lines stdout))) in
  (forall code text resp,
     script_response http_version success stdout = Some (code, text, resp) ->
     exists body, resp = head ++ crlf ++ crlf ++ body) /\
  ((forall l, In l (lines stdout) -> l <> EmptyString) ->
     take_header_lines (lines stdout) = lines stdout) /\
  (forall h b,
     stdout = h ++ lf2 ++ b ->
     find_str lf2 (h ++ String nl EmptyString) = None ->
     (forall c b', b = String c b' -> is_cont c = false) ->
     script_response http_version success stdout =
       Some (if success then "200" else "500", if success then "OK" else "Internal Server Error",
             head ++ crlf ++ crlf ++ b)).
Proof.
  cbv zeta. split; [| split].
  - intros code text resp H. rewrite script_response_eq in H.
    destruct (slice_from stdout _) as [body |]; [| discriminate].
    injection H as _ _ <-. exists body. reflexivity.
  - apply take_header_lines_all.
  - intros h b -> Hnone Hb. rewrite script_response_eq.
    rewrite (find_lf2_first h b Hnone).
    unfold slice_from.
    rewrite !string_length_app.
    replace (Nat.ltb (String.length h + (String.length lf2 + String.length b)) (String.length h + 2))
      with false by (symmetry; apply Nat.ltb_ge; simpl; lia).
    rewrite get_app_length.
    assert (Hsub : substring (String.length h + 2) (String.length h + (String.length lf2 + String.length b))
                             (h ++ lf2 ++ b) = b).
    { rewrite substring_app_length. simpl. apply substring_0_full. simpl. lia. }
    rewrite Hsub.
    destruct b as [| c b']; [reflexivity |].
    change (get 2 (lf2 ++ String c b')) with (Some c). cbv beta iota.
    rewrite (Hb c b' eq_refl). reflexivity.
Qed.

Lemma script_response_headers_and_body_witness :
  script_response "HTTP/1.0" false ("Content-Type: text/plain" ++ lf2 ++ "done") =
    Some ("500", "Internal Server Error",
          "HTTP/1.0 500 Internal Server Error" ++ crlf ++ "Connection: close" ++ crlf
            ++ "Content-Type: text/plain" ++ crlf ++ crlf ++ "done").
Proof.
  destruct (script_response_headers_and_body "HTTP/1.0" false ("Content-Type: text/plain" ++ lf2 ++ "done"))
    as [_ [_ H]].
  rewrite (H "Content-Type: text/plain" "done" eq_refl ltac:(vm_compute; reflexivity)
             ltac:(intros c b' E; injection E as <- _; reflexivity)).
  vm_compute. reflexivity.
Defined.

(** ** C2: exit status and standard error of a script *)

(** Claim C2, counterexample: the demo script exits with status 1 and
    writes "oops" to stderr; the 500 response carries the body "out" taken
    from its stdout, and "oops" appears nowhere. *)
Lemma failing_script_body_is_stdout :
  let st' := snd (handle_request demo_world (request_text "GET /scripts/s HTTP/1.0" []) (init "")) in
  po_stderr demo_output = "oops" /\
  st_out st' = "HTTP/1.0 500 Internal Server Error" ++ crlf ++ "Connection: close" ++ crlf
                 ++ "X-Script: yes" ++ crlf ++ crlf ++ "out" /\
  contains (st_out st') "oops" = false.
Proof. vm_compute. repeat split. Qed.

(** Claim C2, as the code has it: the status is 200 OK when the child
    exits with status 0 and 500 Internal Server Error otherwise (a non-zero
    code or a signal); in both cases what is written is built from the exit
    status and the decoded stdout alone ([script_response]), so standard
    error, although captured, never reaches the response. *)
Theorem execute_script_status_and_stderr (w : World) (script_path http_version : string)
  (headers : hmap) (method requested_path : string) (query_string combined_query : option string)
  (st : St) :
  let inv := mkInvocation script_path (script_env headers method requested_path query_string combined_query)
                          StdinInherit in
  (forall o code text st',
     run w inv = Some o ->
     execute_script w script_path http_version headers method requested_path query_string
                    combined_query st = (ROk (code, text), st') ->
     code = (if status_success o then "200" else "500") /\
     text = (if status_success o then "OK" else "Internal Server Error") /\
     exists resp,
       st_out st' = st_out st ++ resp /\
       script_response http_version (status_success o) (from_utf8_lossy (po_stdout o))
         = Some (code, text, resp)) /\
  (forall w' : World,
     root w' = root w -> fs w' = fs w -> peer w' = peer w ->
     (forall i, option_map (fun o => (po_status o, po_stdout o)) (run w i) =
                option_map (fun o => (po_status o, po_stdout o)) (run w' i)) ->
     execute_script w' script_path http_version headers method requested_path query_string
                    combined_query st =
     execute_script w script_path http_version headers method requested_path query_string
                    combined_query st).
Proof.
  cbv zeta. split.
  - intros o code text st' Hrun Hex.
    unfold execute_script, bind, output in Hex. rewrite Hrun in Hex.
    destruct (script_response http_version (status_success o) (from_utf8_lossy (po_stdout o)))
      as [[[c t] resp] |] eqn:E; [| discriminate].
    unfold write_all, ret in Hex. simpl in Hex. injection Hex as Hc Ht <-.
    subst c t.
    destruct (script_response_status _ _ _ _ _ _ E) as [Ec Et].
    split; [exact Ec |]. split; [exact Et |].
    exists resp. split; reflexivity.
  - intros w' _ _ _ Hrun.
    unfold execute_script, bind, output.
    specialize (Hrun (mkInvocation script_path
                        (script_env headers method requested_path query_string combined_query) StdinInherit)).
    destruct (run w _) as [o |], (run w' _) as [o' |]; simpl in Hrun; try discriminate; [| reflexivity].
    injection Hrun as Hs Ho. unfold status_success. rewrite Hs, Ho. reflexivity.
Qed.

Lemma execute_script_status_and_stderr_witness :
  exists st',
    execute_script demo_world "/srv/scripts/s" "HTTP/1.0" [] "GET" "/scripts/s" None None (init "")
      = (ROk ("500", "Internal Server Error"), st') /\
    "500" = (if status_success demo_output then "200" else "500").
Proof.
  destruct (execute_script demo_world "/srv/scripts/s" "HTTP/1.0" [] "GET" "/scripts/s" None None (init ""))
    as [r st'] eqn:E.
  pose proof E as E'. vm_compute in E'. injection E' as Hr _. subst r.
  exists st'. split; [reflexivity |].
  destruct (execute_script_status_and_stderr demo_world "/srv/scripts/s" "HTTP/1.0" [] "GET" "/scripts/s"
              None None (init "")) as [H1 _].
  destruct (H1 demo_output "500" "Internal Server Error" st' eq_refl E) as [Hc _].
  exact Hc.
Defined.

(** ** Paths made of plain segments *)

Lemma split_char_no_slash (x : string) :
  no_slash x = true -> split_char slash x = [x].
Proof.
  induction x as [| a x IH]; intros H; [reflexivity |].
  simpl in H. apply andb_prop in H as [Ha Hx].
  simpl. apply negb_true_iff in Ha. rewrite Ha. rewrite IH by exact Hx. reflexivity.
Qed.

Lemma split_char_no_slash_app (x t : string) :
  no_slash x = true -> split_char slash (x ++ String slash t) = x :: split_char slash t.
Proof.
  induction x as [| a x IH]; intros H.
  - reflexivity.
  - simpl in H. apply andb_prop in H as [Ha Hx].
    simpl. apply negb_true_iff in Ha. rewrite Ha. rewrite IH by exact Hx. reflexivity.
Qed.

Lemma plain_no_slash (s : string) : plain_segment s = true -> no_slash s = true.
Proof. unfold plain_segment. intros H. repeat (apply andb_prop in H as [H ?]). exact H. Qed.

Lemma join_slash_cons2 (x y : string) (l : list string) :
  join "/" (x :: y :: l) = x ++ String slash (join "/" (y :: l)).
Proof. reflexivity. Qed.

Lemma split_char_join (segs : list string) :
  segs <> [] -> Forall (fun s => plain_segment s = true) segs ->
  split_char slash (join "/" segs) = segs.
Proof.
  induction segs as [| x segs IH]; intros Hne Hp; [contradiction |].
  inversion Hp as [| ? ? Hx Hrest]; subst.
  destruct segs as [| y segs].
  - simpl. apply split_char_no_slash, plain_no_slash, Hx.
  - rewrite join_slash_cons2, split_char_no_slash_app by (apply plain_no_slash, Hx).
    rewrite IH by (discriminate || exact Hrest). reflexivity.
Qed.

Lemma tag_plain (s : string) : plain_segment s = true -> tag_segment s = Some (Normal s).
Proof.
  unfold plain_segment, tag_segment. intros H.
  apply andb_prop in H as [H H3]. apply andb_prop in H as [H H2]. apply andb_prop in H as [_ H1].
  apply negb_true_iff in H1, H2, H3. rewrite H1, H2, H3. reflexivity.
Qed.

Lemma tagged_abs (segs : list string) :
  segs <> [] -> Forall (fun s => plain_segment s = true) segs ->
  tagged (String slash (join "/" segs)) =
    (Some RootDir, "") :: map (fun s => (Some (Normal s), s)) segs.
Proof.
  intros Hne Hp. unfold tagged.
  change (split_char slash (String slash (join "/" segs)))
    with (EmptyString :: split_char slash (join "/" segs)).
  rewrite split_char_join by assumption.
  change (starts_with_char slash (String slash (join "/" segs))) with true. cbv iota.
  f_equal. apply map_ext_in. intros s Hs.
  rewrite Forall_forall in Hp. rewrite tag_plain by (apply Hp; exact Hs). reflexivity.
Qed.

Lemma components_abs (segs : list string) :
  segs <> [] -> Forall (fun s => plain_segment s = true) segs ->
  components (String slash (join "/" segs)) = RootDir :: map Normal segs.
Proof.
  intros Hne Hp. unfold components. rewrite tagged_abs by assumption.
  simpl. f_equal. clear Hne Hp. induction segs as [| s segs IH]; simpl; [reflexivity | rewrite IH; reflexivity].
Qed.

Lemma strip_tagged_segs (rk rest : list string) :
  strip_tagged (map Normal rk) (map (fun s => (Some (Normal s), s)) (rk ++ rest)) =
    Some (map (fun s => (Some (Normal s), s)) rest).
Proof.
  induction rk as [| x rk IH].
  - destruct rest; reflexivity.
  - simpl. rewrite String.eqb_refl. exact IH.
Qed.

Lemma drop_untagged_tagged (l : list string) :
  drop_untagged (map (fun s => (Some (Normal s), s)) l) = map (fun s => (Some (Normal s), s)) l.
Proof. destruct l; reflexivity. Qed.

Lemma join_app_last (sep : string) (a : list string) (c : string) :
  a <> [] -> join sep (app a [c]) = join sep a ++ sep ++ c.
Proof.
  induction a as [| x a IH]; intros Hne; [contradiction |].
  destruct a as [| y a].
  - reflexivity.
  - change (join sep (app (x :: y :: a) [c])) with (x ++ sep ++ join sep (app (y :: a) [c])).
    rewrite IH by discriminate.
    change (join sep (x :: y :: a)) with (x ++ sep ++ join sep (y :: a)).
    rewrite !string_app_assoc. reflexivity.
Qed.

Lemma str_rev_app_app (a b acc : string) : str_rev_app (a ++ b) acc = str_rev_app b (str_rev_app a acc).
Proof. revert acc. induction a as [| x a IH]; intros acc; simpl; [reflexivity | apply IH]. Qed.

Lemma ends_slash_no_slash (s acc : string) :
  s <> "" -> no_slash s = true -> starts_with_char slash (str_rev_app s acc) = false.
Proof.
  revert acc. induction s as [| a s IH]; intros acc Hne H; [contradiction |].
  simpl in H. apply andb_prop in H as [Ha Hs]. simpl.
  destruct s as [| b s].
  - simpl. apply negb_true_iff in Ha. exact Ha.
  - apply IH; [discriminate | exact Hs].
Qed.

Lemma plain_nonempty (s : string) : plain_segment s = true -> s <> "".
Proof.
  unfold plain_segment. intros H ->. simpl in H. discriminate.
Qed.

Lemma join_abs_no_trailing_slash (segs : list string) :
  segs <> [] -> Forall (fun s => plain_segment s = true) segs ->
  ends_with_char slash (String slash (join "/" segs)) = false.
Proof.
  intros Hne Hp.
  destruct (exists_last Hne) as (init & c & E). subst segs.
  apply Forall_app in Hp as [Hi Hc]. inversion Hc as [| ? ? Hcp _]; subst.
  unfold ends_with_char, str_rev.
  destruct init as [| x init].
  - simpl. apply (ends_slash_no_slash c (String slash "")); [apply plain_nonempty, Hcp | apply plain_no_slash, Hcp].
  - rewrite join_app_last by discriminate.
    replace (String slash (join "/" (x :: init) ++ "/" ++ c))
      with ((String slash (join "/" (x :: init)) ++ "/") ++ c)
      by (simpl; rewrite string_app_assoc; reflexivity).
    rewrite str_rev_app_app.
    apply ends_slash_no_slash; [apply plain_nonempty, Hcp | apply plain_no_slash, Hcp].
Qed.

Lemma plain_not_rooted (c : string) : plain_segment c = true -> starts_with_char slash c = false.
Proof.
  intros H. apply plain_no_slash in H. destruct c as [| a c]; [reflexivity |].
  simpl in H. apply andb_prop in H as [Ha _]. apply negb_true_iff in Ha. exact Ha.
Qed.

Lemma map_snd_tagged (l : list string) : map snd (map (fun s => (Some (Normal s), s)) l) = l.
Proof. rewrite map_map. apply map_id. Qed.

(** ** C7 *)

(** C7 (counterexample): the listing of "/srv/sub", whose only child is the
    directory "d", has no ".." entry and no '/' after the directory's name. *)
Lemma directory_listing_no_parent_no_slash :
  generate_directory_listing demo_fs "/srv/sub" "/srv" =
  Some (listing_open ++ "<li><a href=" ++ dquote ++ "sub/d" ++ dquote ++ ">d</a></li>" ++ listing_close).
Proof. vm_compute. reflexivity. Qed.

Lemma components_root_join (rk : list string) :
  Forall (fun s => plain_segment s = true) rk ->
  components ("/" ++ join "/" rk) = RootDir :: map Normal rk.
Proof.
  intros H. destruct rk as [| x rk]; [reflexivity |].
  apply components_abs; [discriminate | exact H].
Qed.

(** C7: for a root "/r1/.../rk" (possibly "/" itself) and a directory
    "/r1/.../rk/d1/.../dm" inside it (all plain segments) whose entries are
    [names], the listing holds one anchor per entry, in enumeration order:
    its href is the entry's path relative to the root, "d1/.../dm/name",
    decoded lossily, and its text is the bare name, or nothing when the
    name is not valid UTF-8; directories get no '/' suffix and there is no
    ".." entry. *)
Theorem generate_directory_listing_entries (fs : FS) (rk rel names : list string)
  (Hp : Forall (fun s => plain_segment s = true) (app rk rel))
  (Hn : Forall (fun s => plain_segment s = true) names)
  (Hread : read_dir fs ("/" ++ join "/" (app rk rel)) = Some names) :
  generate_directory_listing fs ("/" ++ join "/" (app rk rel)) ("/" ++ join "/" rk) =
  Some (listing_open
        ++ String.concat "" (map (fun c => "<li><a href=" ++ dquote ++ from_utf8_lossy (join "/" (app rel [c]))
                                            ++ dquote ++ ">" ++ (if utf8_valid c then c else "")
                                            ++ "</a></li>") names)
        ++ listing_close).
Proof.
  unfold generate_directory_listing. rewrite Hread.
  assert (Hitem : forall c, In c names ->
    listing_item ("/" ++ join "/" (app rk rel)) ("/" ++ join "/" rk) c =
    "<li><a href=" ++ dquote ++ from_utf8_lossy (join "/" (app rel [c])) ++ dquote ++ ">"
      ++ (if utf8_valid c then c else "") ++ "</a></li>").
  { intros c Hc. rewrite Forall_forall in Hn. specialize (Hn c Hc).
    assert (Hall : Forall (fun s => plain_segment s = true) (app (app rk rel) [c]))
      by (apply Forall_app; split; [exact Hp | constructor; [exact Hn | constructor]]).
    assert (Hjoin : path_join ("/" ++ join "/" (app rk rel)) c =
                    String slash (join "/" (app (app rk rel) [c]))).
    { unfold path_join. rewrite plain_not_rooted by exact Hn.
      destruct (app rk rel) as [| x l] eqn:Ene; [reflexivity |].
      assert (Hne : x :: l <> []) by discriminate.
      rewrite <- Ene in Hne |- *. rewrite <- Ene in Hall.
      change (String.eqb ("/" ++ join "/" (app rk rel)) "") with false.
      change ("/" ++ join "/" (app rk rel)) with (String slash (join "/" (app rk rel))).
      rewrite join_abs_no_trailing_slash; [| exact Hne | rewrite Ene; exact Hp].
      rewrite join_app_last by exact Hne. reflexivity. }
    unfold listing_item. rewrite Hjoin.
    assert (Hfn : file_name (String slash (join "/" (app (app rk rel) [c]))) = Some c).
    { unfold file_name. rewrite components_abs by (destruct (app rk rel); discriminate || assumption).
      cbn [rev]. rewrite map_app, rev_app_distr. reflexivity. }
    assert (Hsp : strip_prefix (String slash (join "/" (app (app rk rel) [c]))) ("/" ++ join "/" rk)
                  = Some (join "/" (app rel [c]))).
    { unfold strip_prefix.
      assert (Hrkp : Forall (fun s => plain_segment s = true) rk)
        by (apply Forall_app in Hp as [H _]; exact H).
      rewrite components_root_join by assumption.
      rewrite tagged_abs by (destruct (app rk rel); discriminate || assumption).
      change (strip_tagged (RootDir :: map Normal rk)
                ((Some RootDir, EmptyString) :: map (fun s => (Some (Normal s), s)) (app (app rk rel) [c])))
        with (strip_tagged (map Normal rk) (map (fun s => (Some (Normal s), s)) (app (app rk rel) [c]))).
      rewrite <- app_assoc, strip_tagged_segs.
      rewrite drop_untagged_tagged, <- map_rev, drop_untagged_tagged, <- map_rev, rev_involutive.
      rewrite map_snd_tagged. reflexivity. }
    rewrite Hfn, Hsp. reflexivity. }
  rewrite (map_ext_in _ _ names Hitem). reflexivity.
Qed.

Lemma generate_directory_listing_entries_witness :
  generate_directory_listing demo_fs ("/" ++ join "/" (app [] ["srv"; "sub"])) ("/" ++ join "/" []) =
  Some (listing_open
        ++ String.concat "" (map (fun c => "<li><a href=" ++ dquote ++ from_utf8_lossy (join "/" (app ["srv"; "sub"] [c]))
                                            ++ dquote ++ ">" ++ (if utf8_valid c then c else "")
                                            ++ "</a></li>") ["d"])
        ++ listing_close).
Proof.
  apply (generate_directory_listing_entries demo_fs [] ["srv"; "sub"] ["d"]).
  - repeat constructor.
  - repeat constructor.
  - vm_compute. reflexivity.
Defined.

(** ** What the spawned processes receive on standard input *)

Create HintDb spawns.

Lemma se_ret {A} (a : A) : spawns_inherit_stdin (ret a).
Proof. intros st. exists []. rewrite app_nil_r. split; [reflexivity | constructor]. Qed.

Lemma se_bind {A B} (m : M A) (k : A -> M B) :
  spawns_inherit_stdin m -> (forall a, spawns_inherit_stdin (k a)) -> spawns_inherit_stdin (bind m k).
Proof.
  intros Hm Hk st. unfold bind. destruct (Hm st) as (n1 & E1 & F1).
  destruct (m st) as [[a | |] st1]; simpl in E1 |- *.
  - destruct (Hk a st1) as (n2 & E2 & F2). exists (app n1 n2).
    rewrite E2, E1, app_assoc. split; [reflexivity | apply Forall_app; split; assumption].
  - exists n1. split; assumption.
  - exists n1. split; assumption.
Qed.

Lemma se_catch {A} (m : M A) : spawns_inherit_stdin m -> spawns_inherit_stdin (catch m).
Proof.
  intros Hm st. unfold catch. destruct (Hm st) as (n1 & E1 & F1).
  destruct (m st) as [[a | |] st1]; simpl in E1 |- *; exists n1; split; assumption.
Qed.

Lemma se_panic {A} : spawns_inherit_stdin (@panic A).
Proof. intros st. exists []. rewrite app_nil_r. split; [reflexivity | constructor]. Qed.

Lemma se_write_all (s : string) : spawns_inherit_stdin (write_all s).
Proof. intros st. exists []. rewrite app_nil_r. split; [reflexivity | constructor]. Qed.

Lemma se_println (s : string) : spawns_inherit_stdin (println s).
Proof. intros st. exists []. rewrite app_nil_r. split; [reflexivity | constructor]. Qed.

Lemma se_read_exact (n : N) : spawns_inherit_stdin (read_exact n).
Proof.
  intros st. exists []. rewrite app_nil_r. unfold read_exact.
  destruct (N.leb _ _); (split; [reflexivity | constructor]).
Qed.

Lemma se_output (w : World) (inv : Invocation) :
  inv_stdin inv = StdinInherit -> spawns_inherit_stdin (output w inv).
Proof.
  intros H st. exists [inv]. unfold output.
  destruct (run w inv); (split; [reflexivity | constructor; [exact H | constructor]]).
Qed.

#[local] Hint Resolve se_ret se_panic se_write_all se_println se_read_exact : spawns.

Ltac spawns_step :=
  first
    [ solve [eauto with spawns]
    | apply se_catch
    | apply se_bind; intros
    | progress cbv zeta
    | match goal with
      | |- spawns_inherit_stdin (if ?b then _ else _) => destruct b
      | |- spawns_inherit_stdin (match ?x with _ => _ end) => destruct x
      end ].

Lemma se_execute_script (w : World) (script_path http_version : string) (headers : hmap)
  (method requested_path : string) (query_string combined_query : option string) :
  spawns_inherit_stdin (execute_script w script_path http_version headers method requested_path
                     query_string combined_query).
Proof.
  unfold execute_script. apply se_bind; [apply se_output; reflexivity | intros o].
  destruct (script_response _ _ _) as [[[c t] r] |]; repeat spawns_step.
Qed.

Lemma se_log_connection (w : World) (m rp c t : string) : spawns_inherit_stdin (log_connection w m rp c t).
Proof. unfold log_connection. auto with spawns. Qed.

Lemma se_send_response (v c t ct body : string) : spawns_inherit_stdin (send_response v c t ct body).
Proof. unfold send_response. auto with spawns. Qed.

Lemma se_respond (w : World) (m rp v c t ct body : string) : spawns_inherit_stdin (respond w m rp v c t ct body).
Proof. unfold respond. apply se_bind; intros; [apply se_send_response | apply se_log_connection]. Qed.

Lemma se_read_post_data (method : string) (headers : hmap) : spawns_inherit_stdin (read_post_data method headers).
Proof. unfold read_post_data. destruct (String.eqb _ _); repeat spawns_step. Qed.

#[local] Hint Resolve se_execute_script se_log_connection se_send_response se_respond se_read_post_data : spawns.

Lemma se_dispatch (w : World) (rq : Request) : spawns_inherit_stdin (dispatch w rq).
Proof.
  unfold dispatch, not_found, forbidden, internal_error.
  destruct (split_target (req_full_path rq)) as [rp qs].
  repeat spawns_step.
Qed.

Lemma se_handle_request (w : World) (buffer : string) : spawns_inherit_stdin (handle_request w buffer).
Proof.
  unfold handle_request. destruct (Nat.eqb _ _); [apply se_ret |].
  destruct (parse_request buffer); [apply se_dispatch | apply se_ret].
Qed.

(** ** C3 *)

(** C3 (counterexample): a POST to the script "/srv/scripts/s" with the body
    "a=1" (sent twice, since the body is read twice) spawns the script once;
    its standard input is the server's own, not a pipe carrying the body. *)
Lemma script_post_body_not_on_stdin :
  map inv_stdin
    (st_spawned (snd (handle_request demo_world
                        (request_text "POST /scripts/s HTTP/1.0" ["Content-Length: 3"])
                        (init "a=1b=2")))) = [StdinInherit].
Proof. vm_compute. reflexivity. Qed.

(** C3: every process [handle_request] spawns inherits the server's
    standard input: nothing is piped to it, and in particular no POST body
    is written to it; the body reaches a script only through its Query_
    environment variables. *)
Theorem handle_request_script_stdin_inherited (w : World) (buffer : string) (st : St) :
  exists new,
    st_spawned (snd (handle_request w buffer st)) = app (st_spawned st) new /\
    Forall (fun i => inv_stdin i = StdinInherit) new.
Proof. apply se_handle_request. Qed.

(** ** What is written to the socket *)

Create HintDb wire.

Lemma silent_ret {A} (a : A) : silent (ret a).
Proof. intros st. reflexivity. Qed.

Lemma silent_panic {A} : silent (@panic A).
Proof. intros st. reflexivity. Qed.

Lemma silent_println (s : string) : silent (println s).
Proof. intros st. reflexivity. Qed.

Lemma silent_log_connection (w : World) (m rp c t : string) : silent (log_connection w m rp c t).
Proof. intros st. reflexivity. Qed.

Lemma silent_read_exact (n : N) : silent (read_exact n).
Proof. intros st. unfold read_exact. destruct (N.leb _ _); reflexivity. Qed.

Lemma silent_output (w : World) (inv : Invocation) : silent (output w inv).
Proof. intros st. unfold output. destruct (run w inv); reflexivity. Qed.

Lemma silent_bind {A B} (m : M A) (k : A -> M B) :
  silent m -> (forall a, silent (k a)) -> silent (bind m k).
Proof.
  intros Hm Hk st. unfold bind. specialize (Hm st).
  destruct (m st) as [[a | |] st1]; simpl in Hm |- *; [rewrite Hk | |]; exact Hm.
Qed.

Lemma silent_read_post_data (method : string) (headers : hmap) : silent (read_post_data method headers).
Proof.
  unfold read_post_data. destruct (String.eqb _ _);
    [apply silent_bind; [apply silent_read_exact | intros; apply silent_ret] | apply silent_ret].
Qed.

Lemma writes_once_silent {A} (w : World) (m : M A) : silent m -> writes_once w m.
Proof. intros H st. exists "". rewrite H, string_app_nil_r. split; [reflexivity | left; reflexivity]. Qed.

Lemma writes_once_silent_then {A B} (w : World) (m : M A) (k : A -> M B) :
  silent m -> (forall a, writes_once w (k a)) -> writes_once w (bind m k).
Proof.
  intros Hm Hk st. unfold bind. specialize (Hm st).
  destruct (m st) as [[a | |] st1]; simpl in Hm |- *.
  - destruct (Hk a st1) as (R & E & HR). exists R. rewrite E, Hm. split; [reflexivity | exact HR].
  - exists "". rewrite Hm, string_app_nil_r. split; [reflexivity | left; reflexivity].
  - exists "". rewrite Hm, string_app_nil_r. split; [reflexivity | left; reflexivity].
Qed.

Lemma writes_once_then_silent {A B} (w : World) (m : M A) (k : A -> M B) :
  writes_once w m -> (forall a, silent (k a)) -> writes_once w (bind m k).
Proof.
  intros Hm Hk st. unfold bind. destruct (Hm st) as (R & E & HR).
  destruct (m st) as [[a | |] st1]; simpl in E |- *.
  - exists R. rewrite Hk, E. split; [reflexivity | exact HR].
  - exists R. split; assumption.
  - exists R. split; assumption.
Qed.

Lemma writes_once_send_response (w : World) (v c t ct body : string) :
  writes_once w (send_response v c t ct body).
Proof.
  intros st. exists (response v c t ct body). split; [reflexivity |].
  right. left. exists v, c, t, ct, body. reflexivity.
Qed.

Lemma writes_once_respond (w : World) (m rp v c t ct body : string) :
  writes_once w (respond w m rp v c t ct body).
Proof.
  unfold respond. apply writes_once_then_silent;
    [apply writes_once_send_response | intros; apply silent_log_connection].
Qed.

(** The static-file branch writes the head and the contents with two calls. *)
Lemma writes_once_static_file (w : World) (v ct m rp contents : string) :
  writes_once w (write_all (response_head v "200" "OK" ct (String.length contents)) ;;;
               write_all contents ;;;
               log_connection w m rp "200" "OK").
Proof.
  intros st. exists (response_head v "200" "OK" ct (String.length contents) ++ contents).
  split.
  - simpl. rewrite string_app_assoc. reflexivity.
  - right. left. exists v, "200", "OK", ct, contents. reflexivity.
Qed.

(** [execute_script] writes one script response when it returns, and
    nothing when it fails or panics. *)
Lemma execute_script_writes (w : World) (script_path http_version : string) (headers : hmap)
  (method requested_path : string) (query_string combined_query : option string) (st : St) :
  match execute_script w script_path http_version headers method requested_path
          query_string combined_query st with
  | (ROk _, st') => exists R, st_out st' = st_out st ++ R /\ http_response w R
  | (_, st') => st_out st' = st_out st
  end.
Proof.
  unfold execute_script, bind at 1, output.
  destruct (run w _) as [o |] eqn:Hrun; [| reflexivity].
  destruct (script_response http_version (status_success o) (from_utf8_lossy (po_stdout o)))
    as [[[c t] R] |] eqn:E; [| reflexivity].
  exists R. split; [reflexivity |]. right.
  exists http_version, (mkInvocation script_path
                          (script_env headers method requested_path query_string combined_query)
                          StdinInherit), o, c, t.
  split; [exact Hrun | exact E].
Qed.

Lemma writes_once_script_branch (w : World) (file_path http_version : string) (headers : hmap)
  (method requested_path : string) (query_string post_data : option string) :
  writes_once w (
    r <- catch (execute_script w file_path http_version headers method requested_path
                                query_string post_data) ;;
    st <- match r with
          | Some st => ret st
          | None =>
              send_response http_version "500" "Internal Server Error" "text/plain"
                "<html>500 Internal Server Error</html>" ;;;
              ret ("500", "Internal Server Error")
          end ;;
    log_connection w method requested_path (fst st) (snd st)).
Proof.
  intros st.
  pose proof (execute_script_writes w file_path http_version headers method requested_path
                query_string post_data st) as H.
  unfold bind at 1, catch.
  destruct (execute_script _ _ _ _ _ _ _ _ st) as [[a | |] st1].
  - destruct H as (R & E & HR). simpl.
    exists R. split; [exact E | right; exact HR].
  - simpl. exists (response http_version "500" "Internal Server Error" "text/plain"
                     "<html>500 Internal Server Error</html>").
    rewrite <- H. split; [reflexivity |]. right. left.
    exists http_version, "500", "Internal Server Error", "text/plain",
      "<html>500 Internal Server Error</html>". reflexivity.
  - simpl. exists "". rewrite H, string_app_nil_r. split; [reflexivity | left; reflexivity].
Qed.

#[local] Hint Resolve silent_read_post_data writes_once_respond writes_once_static_file
  writes_once_script_branch : wire.

Lemma writes_once_dispatch (w : World) (rq : Request) : writes_once w (dispatch w rq).
Proof.
  unfold dispatch, not_found, forbidden, internal_error.
  destruct (split_target (req_full_path rq)) as [rp qs]. cbv zeta.
  apply writes_once_silent_then; [apply silent_read_post_data | intros pd].
  destruct (negb _); [apply writes_once_respond |].
  destruct (is_forbidden_file _ _ _); [apply writes_once_respond |].
  apply writes_once_silent_then; [apply silent_read_post_data | intros pd'].
  destruct (_ || _); [| apply writes_once_respond].
  destruct (path_starts_with _ (path_join _ "forbidden")); [apply writes_once_respond |].
  destruct (_ && _); [apply writes_once_script_branch |].
  destruct (path_is_dir _ _).
  - destruct (generate_directory_listing _ _ _); apply writes_once_respond.
  - destruct (_ && _); [| apply writes_once_respond].
    destruct (read_file _ _); [apply writes_once_static_file | apply writes_once_respond].
Qed.

(** ** C8 *)



(** * Further properties of the server *)

(** ** Header maps *)

Lemma hmap_get_insert (k v : string) (m : hmap) (k' : string) :
  hmap_get k' (hmap_insert k v m) = if String.eqb k' k then Some v else hmap_get k' m.
Proof.
  unfold hmap_insert. simpl. destruct (String.eqb k' k) eqn:E; [reflexivity |].
  induction m as [| [a b] m IH]; simpl; [reflexivity |].
  destruct (String.eqb a k) eqn:Ea; simpl.
  - apply String.eqb_eq in Ea. subst a. rewrite E. exact IH.
  - destruct (String.eqb k' a); [reflexivity | exact IH].
Qed.

(** The header map of a request: the value of a header is the trimmed
    value of its last line; a line without ':' leaves the map unchanged. *)
Theorem collect_headers_snoc (ls : list string) (line k : string) :
  hmap_get k (collect_headers (app ls [line])) =
  match split_once ":"%char line with
  | Some (key, value) => if String.eqb k (trim key) then Some (trim value)
                         else hmap_get k (collect_headers ls)
  | None => hmap_get k (collect_headers ls)
  end.
Proof.
  unfold collect_headers. rewrite fold_left_app. simpl.
  destruct (split_once ":"%char line) as [[key value] |]; [| reflexivity].
  apply hmap_get_insert.
Qed.

(** ** The request target *)

Lemma find_char_some (c : ascii) (s : string) (i m : nat) :
  find_char c s = Some i -> String.length s <= m ->
  substring 0 i s ++ String c (substring (S i) m s) = s /\ find_char c (substring 0 i s) = None.
Proof.
  revert i m. induction s as [| d s IH]; intros i m H Hm; [discriminate |].
  simpl in H. destruct (Ascii.eqb c d) eqn:E.
  - injection H as <-. apply Ascii.eqb_eq in E. subst d. simpl.
    rewrite substring_0_full by (simpl in Hm; lia). split; reflexivity.
  - destruct (find_char c s) as [j |] eqn:Ej; [| discriminate].
    injection H as <-. destruct (IH j m eq_refl) as [E1 E2]; [simpl in Hm; lia |].
    simpl. rewrite E1, E, E2. split; reflexivity.
Qed.

(** [split_target]: the path is what precedes the first '?' (it holds no
    '?'), the query string all that follows it; without a '?' the whole
    target is the path. *)
Theorem split_target_parts (full_path : string) :
  match split_target full_path with
  | (requested_path, Some query) =>
      full_path = requested_path ++ "?" ++ query /\ find_char "?"%char requested_path = None
  | (requested_path, None) =>
      requested_path = full_path /\ find_char "?"%char full_path = None
  end.
Proof.
  unfold split_target. destruct (find_char "?"%char full_path) as [i |] eqn:E.
  - destruct (find_char_some "?"%char full_path i (String.length full_path) E (le_n _)) as [E1 E2].
    split; [symmetry; exact E1 | exact E2].
  - split; reflexivity.
Qed.

Lemma trim_start_matches_not_start (c : ascii) (s : string) :
  starts_with_char c (trim_start_matches c s) = false.
Proof.
  induction s as [| d s IH]; [reflexivity |]. simpl.
  destruct (Ascii.eqb c d) eqn:E; [exact IH | exact E].
Qed.

(** The file path of a request is the root followed by the requested path
    with its leading '/' removed: an absolute request path never replaces
    the root ([PathBuf::join] would), the root is always a prefix. *)
Theorem file_path_of_extends_root (root_folder requested_path : string) :
  root_folder <> "" ->
  exists sep, (sep = "" \/ sep = "/") /\
    file_path_of root_folder requested_path =
      root_folder ++ sep ++ trim_start_matches "/"%char requested_path.
Proof.
  intros Hr. unfold file_path_of, path_join.
  rewrite trim_start_matches_not_start.
  destruct (String.eqb root_folder "") eqn:E; [apply String.eqb_eq in E; contradiction |].
  destruct (ends_with_char slash root_folder).
  - exists "". split; [left; reflexivity | reflexivity].
  - exists "/". split; [right; reflexivity | reflexivity].
Qed.

Lemma file_path_of_extends_root_witness :
  "/srv" <> "" /\
  exists sep, (sep = "" \/ sep = "/") /\
    file_path_of "/srv" "//etc/passwd" = "/srv" ++ sep ++ trim_start_matches "/"%char "//etc/passwd".
Proof. split; [discriminate | apply file_path_of_extends_root; discriminate]. Defined.

(** ** Query parameters and the environment of a script *)

Lemma split_char_none (c : ascii) (s : string) :
  find_char c s = None -> split_char c s = [s].
Proof.
  induction s as [| d s IH]; intros H; [reflexivity |].
  simpl in H |- *. destruct (Ascii.eqb c d); [discriminate |].
  destruct (find_char c s); [discriminate |]. rewrite IH by reflexivity. reflexivity.
Qed.

Lemma split_char_none_app (c : ascii) (x t : string) :
  find_char c x = None -> split_char c (x ++ String c t) = x :: split_char c t.
Proof.
  induction x as [| d x IH]; intros H.
  - simpl. rewrite Ascii.eqb_refl. reflexivity.
  - simpl in H |- *. destruct (Ascii.eqb c d); [discriminate |].
    destruct (find_char c x); [discriminate |]. rewrite IH by reflexivity. reflexivity.
Qed.

Lemma split_char_join_sep (c : ascii) (params : list string) :
  params <> [] -> Forall (fun p => find_char c p = None) params ->
  split_char c (join (String c "") params) = params.
Proof.
  induction params as [| x params IH]; intros Hne Hp; [contradiction |].
  inversion Hp as [| ? ? Hx Hrest]; subst.
  destruct params as [| y params].
  - apply split_char_none, Hx.
  - change (join (String c "") (x :: y :: params))
      with (x ++ String c (join (String c "") (y :: params))).
    rewrite split_char_none_app by exact Hx.
    rewrite IH by (discriminate || exact Hrest). reflexivity.
Qed.

Lemma split_once_pair (c : ascii) (k v : string) :
  find_char c k = None -> split_once c (k ++ String c v) = Some (k, v).
Proof.
  induction k as [| d k IH]; intros H.
  - simpl. rewrite Ascii.eqb_refl. reflexivity.
  - simpl in H |- *. destruct (Ascii.eqb c d); [discriminate |].
    destruct (find_char c k); [discriminate |]. rewrite IH by reflexivity. reflexivity.
Qed.

Lemma find_char_app_none (c : ascii) (a b : string) :
  find_char c a = None -> find_char c b = None -> find_char c (a ++ b) = None.
Proof.
  induction a as [| d a IH]; intros Ha Hb; [exact Hb |].
  simpl in Ha |- *. destruct (Ascii.eqb c d); [discriminate |].
  destruct (find_char c a); [discriminate |]. rewrite (IH eq_refl Hb). reflexivity.
Qed.

Lemma add_query_params_app (params : list string) (env : hmap) (p : string) :
  fold_left (fun env param =>
               match split_once "="%char param with
               | Some (key, value) => hmap_insert ("Query_" ++ key) value env
               | None => env
               end) (app params [p]) env =
  match split_once "="%char p with
  | Some (key, value) =>
      hmap_insert ("Query_" ++ key) value
        (fold_left (fun env param =>
                      match split_once "="%char param with
                      | Some (key, value) => hmap_insert ("Query_" ++ key) value env
                      | None => env
                      end) params env)
  | None =>
      fold_left (fun env param =>
                   match split_once "="%char param with
                   | Some (key, value) => hmap_insert ("Query_" ++ key) value env
                   | None => env
                   end) params env
  end.
Proof. rewrite fold_left_app. reflexivity. Qed.

Lemma add_query_params_last (params : list string) (k v : string) (env : hmap) :
  Forall (fun p => find_char "&"%char p = None) params ->
  find_char "&"%char k = None -> find_char "="%char k = None -> find_char "&"%char v = None ->
  hmap_get ("Query_" ++ k) (add_query_params (join "&" (app params [k ++ "=" ++ v])) env) = Some v.
Proof.
  intros Hp Hk Hke Hv. unfold add_query_params.
  replace ("=" ++ v) with (String "="%char v) by reflexivity.
  rewrite split_char_join_sep.
  - rewrite add_query_params_app. rewrite split_once_pair by exact Hke.
    rewrite hmap_get_insert, String.eqb_refl. reflexivity.
  - destruct params; discriminate.
  - apply Forall_app. split; [exact Hp |]. constructor; [| constructor].
    apply find_char_app_none; [exact Hk |]. simpl. rewrite Hv. reflexivity.
Qed.

Lemma add_query_params_other (q k : string) (env : hmap) :
  (forall s, k <> "Query_" ++ s) ->
  hmap_get k (add_query_params q env) = hmap_get k env.
Proof.
  intros Hk. unfold add_query_params.
  generalize (split_char "&"%char q). intros params. revert env.
  induction params as [| p params IH]; intros env; [reflexivity |]. simpl.
  rewrite IH. destruct (split_once "="%char p) as [[key value] |]; [| reflexivity].
  rewrite hmap_get_insert. destruct (String.eqb k _) eqn:E; [| reflexivity].
  apply String.eqb_eq in E. exfalso. exact (Hk key E).
Qed.

(** A query string "p1&...&pn&k=v": its last pair sets [Query_k] to [v],
    whatever the earlier pairs and the environment held. *)
Theorem add_query_params_last_pair_wins (params : list string) (k v : string) (env : hmap) :
  Forall (fun p => find_char "&"%char p = None) params ->
  find_char "&"%char k = None -> find_char "="%char k = None -> find_char "&"%char v = None ->
  hmap_get ("Query_" ++ k) (add_query_params (join "&" (app params [k ++ "=" ++ v])) env) = Some v.
Proof. apply add_query_params_last. Qed.

Lemma add_query_params_last_pair_wins_witness :
  hmap_get ("Query_" ++ "a") (add_query_params (join "&" (app ["a=1"; "b"] ["a" ++ "=" ++ "2=3"]))
                                [("Query_a", "0")]) = Some "2=3".
Proof.
  apply add_query_params_last_pair_wins; [repeat constructor | reflexivity | reflexivity | reflexivity].
Defined.

(** The environment of a script always has [Method] and [Path] set to the
    request's method and path: a header of that name is overwritten and
    query parameters only set [Query_] names. *)
Theorem script_env_method_path (headers : hmap) (method requested_path : string)
  (query_string combined_query : option string) :
  hmap_get "Method" (script_env headers method requested_path query_string combined_query) = Some method /\
  hmap_get "Path" (script_env headers method requested_path query_string combined_query) = Some requested_path.
Proof.
  unfold script_env.
  assert (HM : forall s, "Method" <> "Query_" ++ s) by (intros s; discriminate).
  assert (HP : forall s, "Path" <> "Query_" ++ s) by (intros s; discriminate).
  destruct combined_query as [c |]; destruct (String.eqb method "POST");
    destruct query_string as [q |]; cbv beta iota zeta;
    (split; [repeat rewrite add_query_params_other by exact HM
            | repeat rewrite add_query_params_other by exact HP]);
    rewrite !hmap_get_insert; reflexivity.
Qed.

(** Parameters from the body (the last argument, which [handle_request]
    fills with the POST data) are applied after those of the URL's query
    string: the body's last pair [k=v] decides [Query_k]. *)
Theorem script_env_body_overrides_query (headers : hmap) (method requested_path : string)
  (query_string : option string) (params : list string) (k v : string) :
  Forall (fun p => find_char "&"%char p = None) params ->
  find_char "&"%char k = None -> find_char "="%char k = None -> find_char "&"%char v = None ->
  hmap_get ("Query_" ++ k)
    (script_env headers method requested_path query_string
       (Some (join "&" (app params [k ++ "=" ++ v])))) = Some v.
Proof. intros. unfold script_env. apply add_query_params_last; assumption. Qed.

Lemma script_env_body_overrides_query_witness :
  hmap_get ("Query_" ++ "x")
    (script_env [] "POST" "/scripts/s" (Some "x=url") (Some (join "&" (app [] ["x" ++ "=" ++ "body"]))))
  = Some "body".
Proof.
  apply script_env_body_overrides_query; [constructor | reflexivity | reflexivity | reflexivity].
Defined.

(** ** Content-Length *)

Lemma byte_digit (d : nat) : d < 10 -> byte_nat (digit_char d) = 48 + d.
Proof. intros H. unfold byte_nat, digit_char. apply nat_ascii_embedding. lia. Qed.

Lemma digit_not_plus (d : nat) : d < 10 -> Ascii.eqb (digit_char d) "+"%char = false.
Proof. intros H. do 10 (destruct d as [| d]; [reflexivity |]). lia. Qed.

Lemma digit_not_ws (d : nat) : d < 10 -> is_ws (digit_char d) = false.
Proof. intros H. do 10 (destruct d as [| d]; [reflexivity |]). lia. Qed.

Lemma parse_digits_digit (d : nat) (s : string) (a : N) :
  d < 10 -> (a * 10 + N.of_nat d <= usize_max)%N ->
  parse_digits (String (digit_char d) s) a = parse_digits s (a * 10 + N.of_nat d)%N.
Proof.
  intros Hd Hmax. cbn [parse_digits]. rewrite byte_digit by exact Hd.
  replace (Nat.leb 48 (48 + d)) with true by (symmetry; apply Nat.leb_le; lia).
  replace (Nat.leb (48 + d) 57) with true by (symmetry; apply Nat.leb_le; lia).
  replace (48 + d - 48) with d by lia. cbv beta iota.
  destruct (N.ltb usize_max _) eqn:E; [apply N.ltb_lt in E; lia | reflexivity].
Qed.

Lemma parse_dec_aux (f n : nat) (acc : string) :
  n < f -> (N.of_nat n <= usize_max)%N ->
  parse_digits (dec_aux f n acc) 0 = parse_digits acc (N.of_nat n).
Proof.
  revert n acc. induction f as [| f IH]; intros n acc Hf Hmax; [lia |].
  pose proof (Nat.div_mod n 10 ltac:(lia)) as Hdm. pose proof (Nat.mod_upper_bound n 10 ltac:(lia)) as Hmb.
  cbn [dec_aux]. destruct (Nat.ltb n 10) eqn:E.
  - apply Nat.ltb_lt in E. rewrite parse_digits_digit by lia.
    rewrite Nat.mod_small by exact E. f_equal; lia.
  - apply Nat.ltb_ge in E. rewrite IH by lia.
    rewrite parse_digits_digit by lia. f_equal; lia.
Qed.

Lemma dec_aux_head (f n : nat) (acc : string) :
  0 < f -> exists d s, d < 10 /\ dec_aux f n acc = String (digit_char d) s.
Proof.
  revert n acc. induction f as [| f IH]; intros n acc Hf; [lia |].
  cbn [dec_aux]. destruct (Nat.ltb n 10).
  - exists (n mod 10), acc. split; [apply Nat.mod_upper_bound; lia | reflexivity].
  - destruct f as [| f].
    + exists (n mod 10), acc. split; [apply Nat.mod_upper_bound; lia | reflexivity].
    + apply IH. lia.
Qed.

Lemma dec_aux_app (f n : nat) (acc : string) : exists x, dec_aux f n acc = x ++ acc.
Proof.
  revert n acc. induction f as [| f IH]; intros n acc; [exists ""; reflexivity |].
  cbn [dec_aux]. destruct (Nat.ltb n 10).
  - exists (String (digit_char (n mod 10)) ""). reflexivity.
  - destruct (IH (n / 10) (String (digit_char (n mod 10)) acc)) as [x Ex].
    exists (x ++ String (digit_char (n mod 10)) ""). rewrite Ex, string_app_assoc. reflexivity.
Qed.

Lemma parse_usize_dec_aux (n : nat) :
  (N.of_nat n <= usize_max)%N -> parse_usize (dec n) = Some (N.of_nat n).
Proof.
  intros Hmax. unfold parse_usize, dec.
  destruct (dec_aux_head (S n) n "" ltac:(lia)) as (d & s & Hd & E).
  rewrite E, digit_not_plus by exact Hd. rewrite <- E.
  rewrite parse_dec_aux by lia. reflexivity.
Qed.

Lemma str_rev_app_twice (s acc b : string) : str_rev_app (str_rev_app s acc) b = str_rev_app acc (s ++ b).
Proof. revert acc b. induction s as [| c s IH]; intros acc b; simpl; [reflexivity | rewrite IH; reflexivity]. Qed.

Lemma str_rev_involutive (s : string) : str_rev (str_rev s) = s.
Proof. unfold str_rev. rewrite str_rev_app_twice, string_app_nil_r. reflexivity. Qed.

Lemma nat_eqb_false (a b : nat) : a <> b -> Nat.eqb a b = false.
Proof. apply Nat.eqb_neq. Qed.

Lemma ws2_ascii_lead (c d : ascii) : byte_nat c < 128 -> ws2 c d = false.
Proof. intros H. unfold ws2. rewrite (nat_eqb_false (byte_nat c) 194) by lia. reflexivity. Qed.

Lemma ws3_ascii_lead (c d e : ascii) : byte_nat c < 128 -> ws3 c d e = false.
Proof.
  intros H. unfold ws3.
  rewrite (nat_eqb_false (byte_nat c) 225), (nat_eqb_false (byte_nat c) 226), (nat_eqb_false (byte_nat c) 227)
    by lia.
  reflexivity.
Qed.

Lemma ws2_ascii_tail (c d : ascii) : byte_nat d < 128 -> ws2 c d = false.
Proof.
  intros H. unfold ws2. rewrite (nat_eqb_false (byte_nat d) 133), (nat_eqb_false (byte_nat d) 160) by lia.
  apply andb_false_r.
Qed.

Lemma ws3_ascii_tail (c d e : ascii) : byte_nat e < 128 -> ws3 c d e = false.
Proof.
  intros H. unfold ws3.
  rewrite (nat_eqb_false (byte_nat e) 128), (nat_eqb_false (byte_nat e) 168), (nat_eqb_false (byte_nat e) 169),
    (nat_eqb_false (byte_nat e) 175), (nat_eqb_false (byte_nat e) 159) by lia.
  replace (Nat.leb 128 (byte_nat e)) with false by (symmetry; apply Nat.leb_gt; lia).
  rewrite !andb_false_r. reflexivity.
Qed.

Lemma trim_start_ascii (c : ascii) (s : string) :
  byte_nat c < 128 -> trim_start (String c s) = if is_ws c then trim_start s else String c s.
Proof.
  intros H. cbn [trim_start]. destruct (is_ws c); [reflexivity |].
  destruct s as [| d s]; [reflexivity |]. rewrite ws2_ascii_lead by exact H.
  destruct s as [| e s]; [reflexivity |]. rewrite ws3_ascii_lead by exact H. reflexivity.
Qed.

Lemma trim_start_rev_ascii (e : ascii) (r : string) :
  byte_nat e < 128 -> trim_start_rev (String e r) = if is_ws e then trim_start_rev r else String e r.
Proof.
  intros H. cbn [trim_start_rev]. destruct (is_ws e); [reflexivity |].
  destruct r as [| d r]; [reflexivity |]. rewrite ws2_ascii_tail by exact H.
  destruct r as [| c r]; [reflexivity |]. rewrite ws3_ascii_tail by exact H. reflexivity.
Qed.

Lemma trim_dec (n : nat) : trim (" " ++ dec n) = dec n.
Proof.
  unfold trim, trim_end.
  destruct (dec_aux_head (S n) n "" ltac:(lia)) as (d & s & Hd & E).
  assert (Hs : trim_start (" " ++ dec n) = dec n).
  { change (" " ++ dec n) with (String " "%char (dec n)).
    rewrite trim_start_ascii by (change (byte_nat " "%char) with 32; lia).
    change (is_ws " "%char) with true. cbv iota.
    unfold dec. rewrite E, trim_start_ascii, digit_not_ws by (try rewrite byte_digit by exact Hd; lia).
    reflexivity. }
  rewrite Hs.
  assert (Hr : exists y, str_rev (dec n) = String (digit_char (n mod 10)) y).
  { unfold dec. cbn [dec_aux]. destruct (Nat.ltb n 10).
    - exists "". reflexivity.
    - destruct (dec_aux_app n (n / 10) (String (digit_char (n mod 10)) "")) as [x Ex].
      exists (str_rev x). rewrite Ex. unfold str_rev. rewrite str_rev_app_app. reflexivity. }
  destruct Hr as [y Hr].
  assert (Hm : n mod 10 < 10) by (apply Nat.mod_upper_bound; lia).
  rewrite Hr, trim_start_rev_ascii, digit_not_ws by (try rewrite byte_digit by exact Hm; lia).
  rewrite <- Hr. apply str_rev_involutive.
Qed.

(** The decimal rendering that [send_response] uses for Content-Length
    reads back, through [str::parse::<usize>], as the same number. *)
Theorem parse_usize_dec (n : nat) :
  (N.of_nat n <= usize_max)%N -> parse_usize (dec n) = Some (N.of_nat n).
Proof. apply parse_usize_dec_aux. Qed.

Lemma parse_usize_dec_witness :
  (N.of_nat 4096 <= usize_max)%N /\ parse_usize (dec 4096) = Some (N.of_nat 4096).
Proof.
  split; [vm_compute; discriminate | apply parse_usize_dec; vm_compute; discriminate].
Defined.

(** A request whose last header line is "Content-Length: n", written the
    way [send_response] writes it, has a body length of [n]. *)
Theorem content_length_last_header (ls : list string) (n : nat) :
  (N.of_nat n <= usize_max)%N ->
  content_length (collect_headers (app ls ["Content-Length: " ++ dec n])) = N.of_nat n.
Proof.
  intros Hmax. unfold content_length, collect_headers. rewrite fold_left_app. cbn [fold_left].
  replace ("Content-Length: " ++ dec n) with ("Content-Length" ++ String ":"%char (" " ++ dec n))
    by reflexivity.
  rewrite split_once_pair by reflexivity.
  rewrite hmap_get_insert.
  replace (trim "Content-Length") with "Content-Length" by reflexivity.
  rewrite String.eqb_refl, trim_dec, parse_usize_dec_aux by exact Hmax. reflexivity.
Qed.

Lemma content_length_last_header_witness :
  (N.of_nat 12 <= usize_max)%N /\
  content_length (collect_headers (app ["Host: x"; "Content-Length: 7"] ["Content-Length: " ++ dec 12]))
    = N.of_nat 12.
Proof.
  split; [vm_compute; discriminate | apply content_length_last_header; vm_compute; discriminate].
Defined.

(** ** Decoding *)

Lemma utf8_chunk_pos (c : ascii) (s : string) : 1 <= snd (utf8_chunk c s).
Proof.
  unfold utf8_chunk. cbv zeta.
  repeat match goal with
         | |- context [if ?b then _ else _] => destruct b
         | |- context [match ?x with EmptyString => _ | String _ _ => _ end] => destruct x
         end; simpl; lia.
Qed.

Lemma substring_split (s : string) (k m : nat) :
  String.length s <= k + m -> substring 0 k s ++ substring k m s = s.
Proof.
  revert k. induction s as [| c s IH]; intros k H.
  - destruct k, m; reflexivity.
  - destruct k as [| k].
    + rewrite (substring_0_full (String c s) m) by lia. reflexivity.
    + simpl. rewrite IH by (simpl in H; lia). reflexivity.
Qed.

Lemma substring_from_length (s : string) (k : nat) :
  1 <= k -> s <> "" -> String.length (substring k (String.length s) s) < String.length s.
Proof.
  intros Hk Hs. rewrite substring_length by lia.
  destruct s; [contradiction |]. change (String.length (String a s)) with (S (String.length s)). lia.
Qed.

Lemma lossy_fuel_valid (f : nat) (s : string) :
  String.length s <= f -> utf8_valid_fuel f s = true -> lossy_fuel f s = s.
Proof.
  revert s. induction f as [| f IH]; intros s Hf Hv.
  - destruct s; [reflexivity | simpl in Hf; lia].
  - destruct s as [| c s']; [reflexivity |].
    cbn [utf8_valid_fuel lossy_fuel] in Hv |- *.
    pose proof (utf8_chunk_pos c s') as Hk.
    destruct (utf8_chunk c s') as [ok k]. simpl in Hk.
    apply andb_prop in Hv as [Hok Hrest]. subst ok.
    pose proof (substring_from_length (String c s') k Hk ltac:(discriminate)) as Hlt.
    rewrite IH; [| lia | exact Hrest].
    apply substring_split. lia.
Qed.

(** [String::from_utf8_lossy] leaves valid UTF-8 unchanged: a POST body
    or a script's output that is valid UTF-8 is used byte for byte. *)
Theorem from_utf8_lossy_valid (s : string) :
  utf8_valid s = true -> from_utf8_lossy s = s.
Proof. intros H. apply lossy_fuel_valid; [lia | exact H]. Qed.

Lemma from_utf8_lossy_valid_witness :
  utf8_valid ("caf" ++ String (ascii_of_nat 195) (String (ascii_of_nat 169) "")) = true /\
  from_utf8_lossy ("caf" ++ String (ascii_of_nat 195) (String (ascii_of_nat 169) ""))
    = "caf" ++ String (ascii_of_nat 195) (String (ascii_of_nat 169) "").
Proof. split; [vm_compute; reflexivity | apply from_utf8_lossy_valid; vm_compute; reflexivity]. Defined.

(** ** What one request reads, logs and runs *)

Lemma kr_ret {A} (a : A) : keeps_rest (ret a).
Proof. intros st. reflexivity. Qed.

Lemma kr_panic {A} : keeps_rest (@panic A).
Proof. intros st. reflexivity. Qed.

Lemma kr_write_all (s : string) : keeps_rest (write_all s).
Proof. intros st. reflexivity. Qed.

Lemma kr_println (s : string) : keeps_rest (println s).
Proof. intros st. reflexivity. Qed.

Lemma kr_output (w : World) (inv : Invocation) : keeps_rest (output w inv).
Proof. intros st. unfold output. destruct (run w inv); reflexivity. Qed.

Lemma kr_bind {A B} (m : M A) (k : A -> M B) :
  keeps_rest m -> (forall a, keeps_rest (k a)) -> keeps_rest (bind m k).
Proof.
  intros Hm Hk st. unfold bind. specialize (Hm st).
  destruct (m st) as [[a | |] st1]; simpl in Hm |- *; [rewrite Hk |..]; exact Hm.
Qed.

Lemma kr_catch {A} (m : M A) : keeps_rest m -> keeps_rest (catch m).
Proof.
  intros Hm st. unfold catch. specialize (Hm st).
  destruct (m st) as [[a | |] st1]; exact Hm.
Qed.

Lemma read_post_data_non_post (method : string) (headers : hmap) :
  method <> "POST" -> read_post_data method headers = ret None.
Proof.
  intros H. unfold read_post_data.
  destruct (String.eqb method "POST") eqn:E; [apply String.eqb_eq in E; contradiction | reflexivity].
Qed.

Create HintDb rest.
#[local] Hint Resolve kr_ret kr_panic kr_write_all kr_println kr_output : rest.

Ltac rest_step :=
  first
    [ solve [eauto with rest]
    | apply kr_catch
    | apply kr_bind; intros
    | progress cbv zeta
    | match goal with
      | |- keeps_rest (if ?b then _ else _) => destruct b
      | |- keeps_rest (match ?x with _ => _ end) => destruct x
      end ].

Lemma kr_execute_script (w : World) (script_path http_version : string) (headers : hmap)
  (method requested_path : string) (query_string combined_query : option string) :
  keeps_rest (execute_script w script_path http_version headers method requested_path
                query_string combined_query).
Proof.
  unfold execute_script. apply kr_bind; [apply kr_output | intros o].
  destruct (script_response _ _ _) as [[[c t] r] |]; repeat rest_step.
Qed.

#[local] Hint Resolve kr_execute_script : rest.

Lemma kr_dispatch (w : World) (rq : Request) :
  req_method rq <> "POST" -> keeps_rest (dispatch w rq).
Proof.
  intros H. unfold dispatch, not_found, forbidden, internal_error, respond, send_response, log_connection.
  destruct (split_target (req_full_path rq)) as [rp qs]. cbv zeta.
  rewrite !read_post_data_non_post by exact H.
  repeat rest_step.
Qed.

(** A request that is not a POST never reads the connection past the
    first buffer: the bytes still to come are left unread. *)
Theorem handle_request_non_post_reads_nothing (w : World) (buffer : string) (st : St) :
  (forall rq, parse_request buffer = Some rq -> req_method rq <> "POST") ->
  st_rest (snd (handle_request w buffer st)) = st_rest st.
Proof.
  intros H. revert st. change (keeps_rest (handle_request w buffer)).
  unfold handle_request. destruct (Nat.eqb _ _); [apply kr_ret |].
  destruct (parse_request buffer) as [rq |] eqn:E; [| apply kr_ret].
  apply kr_dispatch, H. reflexivity.
Qed.

Lemma handle_request_non_post_reads_nothing_witness :
  (forall rq, parse_request (request_text "GET /index.html HTTP/1.1" ["Content-Length: 5"]) = Some rq ->
              req_method rq <> "POST") /\
  st_rest (snd (handle_request demo_world (request_text "GET /index.html HTTP/1.1" ["Content-Length: 5"])
                  (init "hello"))) = st_rest (init "hello").
Proof.
  assert (H : forall rq, parse_request (request_text "GET /index.html HTTP/1.1" ["Content-Length: 5"])
                         = Some rq -> req_method rq <> "POST").
  { intros rq E. vm_compute in E. injection E as <-. discriminate. }
  split; [exact H | apply handle_request_non_post_reads_nothing; exact H].
Defined.

(** Generic rules for [appends_none] and [appends_one]. *)

Lemma an_ret {A X} (f : St -> list X) (a : A) : appends_none f (ret a).
Proof. intros st. reflexivity. Qed.

Lemma an_panic {A X} (f : St -> list X) : appends_none f (@panic A).
Proof. intros st. reflexivity. Qed.

Lemma an_bind {A B X} (f : St -> list X) (m : M A) (k : A -> M B) :
  appends_none f m -> (forall a, appends_none f (k a)) -> appends_none f (bind m k).
Proof.
  intros Hm Hk st. unfold bind. specialize (Hm st).
  destruct (m st) as [[a | |] st1]; simpl in Hm |- *; [rewrite Hk |..]; exact Hm.
Qed.

Lemma an_catch {A X} (f : St -> list X) (m : M A) : appends_none f m -> appends_none f (catch m).
Proof.
  intros Hm st. unfold catch. specialize (Hm st).
  destruct (m st) as [[a | |] st1]; exact Hm.
Qed.

Lemma ao_none {A X} (f : St -> list X) (P : X -> Prop) (m : M A) :
  appends_none f m -> appends_one f P m.
Proof. intros H st. exists []. rewrite app_nil_r. split; [apply H | split; [simpl; lia | constructor]]. Qed.

Lemma ao_none_then {A B X} (f : St -> list X) (P : X -> Prop) (m : M A) (k : A -> M B) :
  appends_none f m -> (forall a, appends_one f P (k a)) -> appends_one f P (bind m k).
Proof.
  intros Hm Hk st. unfold bind. specialize (Hm st).
  destruct (m st) as [[a | |] st1]; simpl in Hm |- *.
  - destruct (Hk a st1) as (n & E & L & F). exists n. rewrite E, Hm. split; [reflexivity | split; assumption].
  - exists []. rewrite app_nil_r. split; [exact Hm | split; [simpl; lia | constructor]].
  - exists []. rewrite app_nil_r. split; [exact Hm | split; [simpl; lia | constructor]].
Qed.

Lemma ao_then_none {A B X} (f : St -> list X) (P : X -> Prop) (m : M A) (k : A -> M B) :
  appends_one f P m -> (forall a, appends_none f (k a)) -> appends_one f P (bind m k).
Proof.
  intros Hm Hk st. unfold bind. destruct (Hm st) as (n & E & L & F).
  destruct (m st) as [[a | |] st1]; simpl in E |- *.
  - exists n. rewrite Hk, E. split; [reflexivity | split; assumption].
  - exists n. split; [exact E | split; assumption].
  - exists n. split; [exact E | split; assumption].
Qed.

Lemma ao_catch {A X} (f : St -> list X) (P : X -> Prop) (m : M A) :
  appends_one f P m -> appends_one f P (catch m).
Proof.
  intros Hm st. unfold catch. destruct (Hm st) as (n & E & L & F).
  destruct (m st) as [[a | |] st1]; exists n; (split; [exact E | split; assumption]).
Qed.

Lemma ao_weaken {A X} (f : St -> list X) (P Q : X -> Prop) (m : M A) :
  (forall x, P x -> Q x) -> appends_one f P m -> appends_one f Q m.
Proof.
  intros HPQ Hm st. destruct (Hm st) as (n & E & L & F). exists n.
  split; [exact E | split; [exact L | eapply Forall_impl; [exact HPQ | exact F]]].
Qed.

(** The log *)

Lemma log_write_all (s : string) : appends_none st_log (write_all s).
Proof. intros st. reflexivity. Qed.

Lemma log_read_post_data (method : string) (headers : hmap) : appends_none st_log (read_post_data method headers).
Proof.
  unfold read_post_data. destruct (String.eqb _ _); [| apply an_ret].
  apply an_bind; [| intros; apply an_ret].
  intros st. unfold read_exact. destruct (N.leb _ _); reflexivity.
Qed.

Lemma log_execute_script (w : World) (script_path http_version : string) (headers : hmap)
  (method requested_path : string) (query_string combined_query : option string) :
  appends_none st_log (execute_script w script_path http_version headers method requested_path
                         query_string combined_query).
Proof.
  unfold execute_script. apply an_bind.
  - intros st. unfold output. destruct (run w _); reflexivity.
  - intros o. destruct (script_response _ _ _) as [[[c t] r] |];
      [apply an_bind; [apply log_write_all | intros; apply an_ret] | apply an_panic].
Qed.

Lemma log_log_connection (w : World) (m rp c t : string) :
  appends_one st_log (fun l => exists c' t', l = log_line (peer w) m rp c' t') (log_connection w m rp c t).
Proof.
  intros st. exists [log_line (peer w) m rp c t].
  split; [reflexivity | split; [simpl; lia | constructor; [exists c, t; reflexivity | constructor]]].
Qed.

Lemma log_respond (w : World) (m rp v c t ct body : string) :
  appends_one st_log (fun l => exists c' t', l = log_line (peer w) m rp c' t') (respond w m rp v c t ct body).
Proof. unfold respond. apply ao_none_then; [apply log_write_all | intros; apply log_log_connection]. Qed.

Lemma log_dispatch (w : World) (rq : Request) :
  appends_one st_log
    (fun l => exists c t, l = log_line (peer w) (req_method rq) (fst (split_target (req_full_path rq))) c t)
    (dispatch w rq).
Proof.
  unfold dispatch, not_found, forbidden, internal_error.
  destruct (split_target (req_full_path rq)) as [rp qs]. cbv zeta. cbn [fst].
  apply ao_none_then; [apply log_read_post_data | intros pd].
  destruct (negb _); [apply log_respond |].
  destruct (is_forbidden_file _ _ _); [apply log_respond |].
  apply ao_none_then; [apply log_read_post_data | intros pd'].
  destruct (_ || _); [| apply log_respond].
  destruct (path_starts_with _ (path_join _ "forbidden")); [apply log_respond |].
  destruct (_ && _).
  - apply ao_none_then; [apply an_catch, log_execute_script | intros r].
    apply ao_none_then; [| intros; apply log_log_connection].
    destruct r; [apply an_ret | apply an_bind; [apply log_write_all | intros; apply an_ret]].
  - destruct (path_is_dir _ _).
    + destruct (generate_directory_listing _ _ _); apply log_respond.
    + destruct (_ && _); [| apply log_respond].
      destruct (read_file _ _); [| apply log_respond].
      apply ao_none_then; [apply log_write_all | intros].
      apply ao_none_then; [apply log_write_all | intros; apply log_log_connection].
Qed.

(** One request prints at most one log line, and only a request that
    parses does: the line names the request's method and path (the target
    without its query string). *)
Theorem handle_request_logs_at_most_once (w : World) (buffer : string) (st : St) :
  exists new,
    st_log (snd (handle_request w buffer st)) = app (st_log st) new /\ length new <= 1 /\
    Forall (fun l => exists rq code text,
                parse_request buffer = Some rq /\
                l = log_line (peer w) (req_method rq) (fst (split_target (req_full_path rq))) code text) new.
Proof.
  revert st. change (appends_one st_log
    (fun l => exists rq code text,
        parse_request buffer = Some rq /\
        l = log_line (peer w) (req_method rq) (fst (split_target (req_full_path rq))) code text)
    (handle_request w buffer)).
  unfold handle_request. destruct (Nat.eqb _ _); [apply ao_none, an_ret |].
  destruct (parse_request buffer) as [rq |] eqn:E; [| apply ao_none, an_ret].
  eapply ao_weaken; [| apply log_dispatch].
  intros l (c & t & El). exists rq, c, t. split; [reflexivity | exact El].
Qed.

(** The processes *)

Lemma sp_write_all (s : string) : appends_none st_spawned (write_all s).
Proof. intros st. reflexivity. Qed.

Lemma sp_println (s : string) : appends_none st_spawned (println s).
Proof. intros st. reflexivity. Qed.

Lemma sp_read_post_data (method : string) (headers : hmap) :
  appends_none st_spawned (read_post_data method headers).
Proof.
  unfold read_post_data. destruct (String.eqb _ _); [| apply an_ret].
  apply an_bind; [| intros; apply an_ret].
  intros st. unfold read_exact. destruct (N.leb _ _); reflexivity.
Qed.

Lemma sp_respond (w : World) (m rp v c t ct body : string) :
  appends_none st_spawned (respond w m rp v c t ct body).
Proof. unfold respond. apply an_bind; [apply sp_write_all | intros; apply sp_println]. Qed.

Lemma sp_execute_script (w : World) (script_path http_version : string) (headers : hmap)
  (method requested_path : string) (query_string combined_query : option string) :
  appends_one st_spawned (fun i => inv_prog i = script_path)
    (execute_script w script_path http_version headers method requested_path
       query_string combined_query).
Proof.
  unfold execute_script. apply ao_then_none.
  - intros st. eexists. split; [unfold output; destruct (run w _); reflexivity |].
    split; [simpl; lia | constructor; [reflexivity | constructor]].
  - intros o. destruct (script_response _ _ _) as [[[c t] r] |];
      [apply an_bind; [apply sp_write_all | intros; apply an_ret] | apply an_panic].
Qed.

(** The conditions under which [handle_request] runs [p] as a script. *)
Lemma sp_dispatch (w : World) (rq : Request) :
  appends_one st_spawned
    (fun i =>
       inv_prog i = file_path_of (root w) (fst (split_target (req_full_path rq))) /\
       (req_method rq = "GET" \/ req_method rq = "POST") /\
       is_forbidden_file (fs w) (inv_prog i) (root w) = false /\
       path_starts_with (inv_prog i) (path_join (root w) "forbidden") = false /\
       path_starts_with (inv_prog i) (path_join (root w) "scripts") = true /\
       path_is_file (fs w) (inv_prog i) = true)
    (dispatch w rq).
Proof.
  unfold dispatch, not_found, forbidden, internal_error.
  destruct (split_target (req_full_path rq)) as [rp qs]. cbv zeta. cbn [fst].
  apply ao_none_then; [apply sp_read_post_data | intros pd].
  destruct (negb _); [apply ao_none, sp_respond |].
  destruct (is_forbidden_file _ _ _) eqn:Ef; [apply ao_none, sp_respond |].
  apply ao_none_then; [apply sp_read_post_data | intros pd'].
  destruct (_ || _) eqn:Em; [| apply ao_none, sp_respond].
  destruct (path_starts_with _ (path_join _ "forbidden")) eqn:Eb; [apply ao_none, sp_respond |].
  destruct (_ && _) eqn:Es.
  - apply ao_then_none.
    + apply ao_catch. eapply ao_weaken; [| apply sp_execute_script].
      intros i ->. apply andb_prop in Es as [Es1 Es2].
      apply orb_prop in Em as [Em | Em]; apply String.eqb_eq in Em.
      * repeat split; auto.
      * repeat split; auto.
    + intros r. apply an_bind; [| intros; apply sp_println].
      destruct r; [apply an_ret | apply an_bind; [apply sp_write_all | intros; apply an_ret]].
  - apply ao_none.
    destruct (path_is_dir _ _).
    + destruct (generate_directory_listing _ _ _); apply sp_respond.
    + destruct (path_exists _ _ && path_is_file _ _); [| apply sp_respond].
      destruct (read_file _ _); [| apply sp_respond].
      apply an_bind; [apply sp_write_all | intros].
      apply an_bind; [apply sp_write_all | intros; apply sp_println].
Qed.


(** ** Canonical paths *)

Lemma split_char_no_slash_all (p : string) :
  Forall (fun x => no_slash x = true) (split_char slash p).
Proof.
  induction p as [| d p IH]; [repeat constructor |].
  cbn [split_char]. destruct (Ascii.eqb slash d) eqn:E.
  - constructor; [reflexivity | exact IH].
  - destruct (split_char slash p) as [| q qs].
    + constructor; [cbn [no_slash]; rewrite E; reflexivity | constructor].
    + inversion IH as [| ? ? Hq Hqs]; subst.
      constructor; [cbn [no_slash]; rewrite E, Hq; reflexivity | exact Hqs].
Qed.

Lemma tag_segment_normal (x s : string) :
  no_slash x = true -> tag_segment x = Some (Normal s) -> x = s /\ plain_segment s = true.
Proof.
  intros Hx H. unfold tag_segment in H.
  destruct (String.eqb x "") eqn:E1; [discriminate |].
  destruct (String.eqb x ".") eqn:E2; [discriminate |].
  destruct (String.eqb x "..") eqn:E3; [discriminate |].
  injection H as <-. split; [reflexivity |].
  unfold plain_segment. rewrite Hx, E1, E2, E3. reflexivity.
Qed.

Lemma in_somes {A} (x : A) (l : list (option A)) : In x (somes l) -> In (Some x) l.
Proof.
  induction l as [| [a |] l IH]; simpl; [contradiction | |].
  - intros [-> | H]; [left; reflexivity | right; apply IH, H].
  - intros H. right. apply IH, H.
Qed.

Lemma components_plain (p s : string) :
  In (Normal s) (components p) -> plain_segment s = true.
Proof.
  unfold components, tagged. pose proof (split_char_no_slash_all p) as Hall.
  destruct (split_char slash p) as [| s0 rest]; [simpl; contradiction |].
  inversion Hall as [| ? ? H0 Hrest]; subst.
  intros H. apply in_somes in H. simpl in H. destruct H as [H | H].
  - destruct (starts_with_char slash p); [discriminate |].
    destruct (String.eqb s0 "."); [discriminate |].
    apply (tag_segment_normal s0 s H0 H).
  - rewrite map_map in H. apply in_map_iff in H as (x & Hx & Hin).
    rewrite Forall_forall in Hrest.
    apply (tag_segment_normal x s (Hrest x Hin) Hx).
Qed.

Lemma dirs_along_nil (fs : FS) : dirs_along fs [].
Proof. split; [constructor | split; [intros j Hj; simpl in Hj; lia | discriminate]]. Qed.

Lemma firstn_app_le {A} (j : nat) (l1 l2 : list A) : j <= length l1 -> firstn j (app l1 l2) = firstn j l1.
Proof.
  intros H. rewrite firstn_app. replace (j - length l1) with 0 by lia. simpl. apply app_nil_r.
Qed.

Lemma walk_dirs_along (fs : FS) (cs : list component) (cur k : list string) :
  dirs_along fs cur -> (forall s, In (Normal s) cs -> plain_segment s = true) ->
  walk fs cs cur = Some k -> dirs_along fs k.
Proof.
  revert cur. induction cs as [| c cs IH]; intros cur Hcur Hplain Hw.
  - simpl in Hw. destruct (fs_node fs cur); [injection Hw as <-; exact Hcur | discriminate].
  - assert (Hplain' : forall s, In (Normal s) cs -> plain_segment s = true)
      by (intros s Hs; apply Hplain; right; exact Hs).
    destruct c as [| | | x]; simpl in Hw.
    + exact (IH [] (dirs_along_nil fs) Hplain' Hw).
    + exact (IH cur Hcur Hplain' Hw).
    + destruct (is_dir_node (fs_node fs cur)) eqn:Ed; [| discriminate].
      apply (IH (removelast cur)); [| exact Hplain' | exact Hw].
      destruct Hcur as (Hf & Hd & He).
      destruct cur as [| y cur'] eqn:Ecur; [exact (dirs_along_nil fs) |].
      rewrite <- Ecur in *.
      assert (Hne : cur <> []) by (rewrite Ecur; discriminate).
      destruct (exists_last Hne) as (pre & z & Epre). rewrite Epre in *.
      rewrite removelast_last.
      apply Forall_app in Hf as [Hf _].
      rewrite length_app in Hd. simpl in Hd.
      split; [exact Hf | split].
      * intros j Hj. rewrite <- (firstn_app_le j pre [z]) by lia. apply Hd. lia.
      * specialize (Hd (length pre) ltac:(lia)). rewrite firstn_app_le, firstn_all in Hd by lia.
        destruct (fs_node fs pre); [discriminate | discriminate].
    + destruct (is_dir_node (fs_node fs cur)) eqn:Ed; [| discriminate].
      destruct (fs_node fs (app cur [x])) eqn:Ex; [| discriminate].
      apply (IH (app cur [x])); [| exact Hplain' | exact Hw].
      destruct Hcur as (Hf & Hd & He).
      split; [apply Forall_app; split; [exact Hf | constructor; [apply Hplain; left; reflexivity | constructor]] |].
      split; [| rewrite Ex; discriminate].
      intros j Hj. rewrite length_app in Hj. simpl in Hj.
      rewrite firstn_app_le by lia.
      destruct (Nat.eq_dec j (length cur)) as [-> | Hne].
      * rewrite firstn_all. exact Ed.
      * apply Hd. lia.
Qed.

Lemma walk_plain_path (fs : FS) (rest pre : list string) :
  dirs_along fs (app pre rest) -> walk fs (map Normal rest) pre = Some (app pre rest).
Proof.
  revert pre. induction rest as [| c r IH]; intros pre (Hf & Hd & He).
  - rewrite app_nil_r in *. simpl. destruct (fs_node fs pre); [reflexivity | contradiction].
  - cbn [map walk].
    assert (Hdir : is_dir_node (fs_node fs pre) = true).
    { specialize (Hd (length pre)). rewrite firstn_app_le, firstn_all in Hd by lia.
      apply Hd. rewrite length_app. simpl. lia. }
    rewrite Hdir.
    assert (Hc : fs_node fs (app pre [c]) <> None).
    { destruct r as [| c' r'].
      - exact He.
      - specialize (Hd (S (length pre))).
        replace (app pre (c :: c' :: r')) with (app (app pre [c]) (c' :: r')) in Hd
          by (rewrite <- app_assoc; reflexivity).
        rewrite firstn_app_le, firstn_all2 in Hd by (rewrite length_app; simpl; lia).
        rewrite length_app, length_app in Hd. simpl in Hd.
        intros E. rewrite E in Hd. discriminate Hd. lia. }
    destruct (fs_node fs (app pre [c])) as [nd |] eqn:En; [| contradiction].
    replace (app pre (c :: r)) with (app (app pre [c]) r) by (rewrite <- app_assoc; reflexivity).
    apply IH.
    replace (app (app pre [c]) r) with (app pre (c :: r)) by (rewrite <- app_assoc; reflexivity).
    split; [exact Hf | split; [exact Hd | exact He]].
Qed.

Lemma lookup_canonical (fs : FS) (p : string) (k : list string) (n : node) :
  lookup fs p = Some (k, n) -> lookup fs ("/" ++ join "/" k) = Some (k, n) /\ dirs_along fs k.
Proof.
  intros H. unfold lookup in H.
  destruct (components p) as [| c0 cs] eqn:Ec; [discriminate |].
  destruct c0; try discriminate.
  destruct (walk fs cs []) as [k' |] eqn:Ew; [| discriminate].
  destruct (fs_node fs k') as [nd |] eqn:En; [| discriminate].
  assert (Hkn : k' = k /\ nd = n).
  { destruct nd as [r | c]; [injection H as <- <-; split; reflexivity |].
    destruct (trailing_dir_mark p); [discriminate | injection H as <- <-; split; reflexivity]. }
  destruct Hkn as [<- <-].
  assert (Hdk : dirs_along fs k').
  { apply (walk_dirs_along fs cs [] k' (dirs_along_nil fs)); [| exact Ew].
    intros s Hs. apply (components_plain p s). rewrite Ec. right. exact Hs. }
  split; [| exact Hdk].
  destruct k' as [| x k''] eqn:Ek.
  - simpl in En. injection En as <-. reflexivity.
  - rewrite <- Ek in *.
    assert (Hne : k' <> []) by (rewrite Ek; discriminate).
    destruct Hdk as (Hf & Hd & He).
    unfold lookup.
    change ("/" ++ join "/" k') with (String slash (join "/" k')).
    rewrite components_abs by assumption.
    rewrite (walk_plain_path fs k' []) by (split; [exact Hf | split; [exact Hd | exact He]]).
    cbn [app]. rewrite En.
    assert (Ht : trailing_dir_mark (String slash (join "/" k')) = false).
    { unfold trailing_dir_mark. rewrite tagged_abs by assumption.
      destruct (exists_last Hne) as (init & z & Ez). rewrite Ez.
      cbn [rev]. rewrite map_app, rev_app_distr. reflexivity. }
    rewrite Ht. destruct nd; reflexivity.
Qed.

Lemma canonicalize_idem (fs : FS) (p c : string) :
  canonicalize fs p = Some c -> canonicalize fs c = Some c.
Proof.
  unfold canonicalize. destruct (lookup fs p) as [[k n] |] eqn:E; [| discriminate].
  intros H. assert (Hc : c = "/" ++ join "/" k) by congruence. subst c.
  destruct (lookup_canonical fs p k n E) as [E' _]. rewrite E'. reflexivity.
Qed.

(** [Path::canonicalize] gives "/" followed by names that are plain
    segments (no ".", "..", empty or '/' parts), each prefix of which is a
    directory; canonicalizing that path again gives it back. *)
Theorem canonicalize_canonical (fs : FS) (p c : string) :
  canonicalize fs p = Some c ->
  exists k, c = "/" ++ join "/" k /\ Forall (fun s => plain_segment s = true) k /\
            canonicalize fs c = Some c.
Proof.
  intros H. pose proof (canonicalize_idem fs p c H) as Hi.
  unfold canonicalize in H. destruct (lookup fs p) as [[k n] |] eqn:E; [| discriminate].
  assert (Hc : c = "/" ++ join "/" k) by congruence. subst c.
  destruct (lookup_canonical fs p k n E) as [_ (Hf & _ & _)].
  exists k. split; [reflexivity | split; [exact Hf | exact Hi]].
Qed.

Lemma canonicalize_canonical_witness :
  canonicalize demo_fs "/srv/./sub/../index.html" = Some "/srv/index.html" /\
  exists k, "/srv/index.html" = "/" ++ join "/" k /\ Forall (fun s => plain_segment s = true) k /\
            canonicalize demo_fs "/srv/index.html" = Some "/srv/index.html".
Proof.
  split; [vm_compute; reflexivity |].
  apply (canonicalize_canonical demo_fs "/srv/./sub/../index.html"). vm_compute. reflexivity.
Defined.

(** ** Starting the server *)

Lemma parse_digits_u16_bound (s : string) (acc n : N) :
  (acc <= u16_max)%N -> parse_digits_u16 s acc = Some n -> (n <= u16_max)%N.
Proof.
  revert acc. induction s as [| c s IH]; intros acc Hacc H.
  - injection H as <-. exact Hacc.
  - cbn [parse_digits_u16] in H.
    destruct (Nat.leb 48 _ && Nat.leb _ 57); [| discriminate].
    destruct (N.ltb u16_max _) eqn:E; [discriminate |].
    apply N.ltb_ge in E. exact (IH _ E H).
Qed.

Lemma parse_u16_bound (s : string) (n : N) : parse_u16 s = Some n -> (n <= u16_max)%N.
Proof.
  unfold parse_u16. intros H.
  destruct (match s with String c s' => if Ascii.eqb c "+"%char then s' else s | EmptyString => s end)
    as [| c b]; [discriminate |].
  apply (parse_digits_u16_bound (String c b) 0 n); [vm_compute; discriminate | exact H].
Qed.

(** [main] serves only when it is given exactly two arguments, the port
    parses as a [u16] (at most 65535) and the root folder canonicalizes;
    the root it hands to every connection is then already canonical. *)
Theorem main_start_listen (fs : FS) (cwd : string) (args : list string) (port : N) (root_folder : string) :
  main_start fs cwd args = Listen port root_folder ->
  length args = 3 /\ parse_u16 (nth 1 args "") = Some port /\ (port <= 65535)%N /\
  canonicalize fs root_folder = Some root_folder.
Proof.
  unfold main_start. intros H.
  destruct (Nat.eqb (length args) 3) eqn:El; [| discriminate]. apply Nat.eqb_eq in El.
  cbn [negb] in H.
  destruct (parse_u16 (nth 1 args "")) as [pt |] eqn:Ep; [| discriminate].
  destruct (String.eqb (nth 2 args "") "") ; [discriminate |].
  destruct (canonicalize fs _) as [r |] eqn:Er; [| discriminate].
  injection H as <- <-.
  split; [exact El | split; [reflexivity | split]].
  - apply (parse_u16_bound _ _ Ep).
  - apply (canonicalize_idem fs _ _ Er).
Qed.

Lemma main_start_listen_witness :
  main_start demo_fs "/" ["rustywebserver"; "8080"; "srv/sub/.."] = Listen 8080 "/srv" /\
  length ["rustywebserver"; "8080"; "srv/sub/.."] = 3 /\
  parse_u16 (nth 1 ["rustywebserver"; "8080"; "srv/sub/.."] "") = Some 8080%N /\ (8080 <= 65535)%N /\
  canonicalize demo_fs "/srv" = Some "/srv".
Proof.
  split; [vm_compute; reflexivity |].
  apply (main_start_listen demo_fs "/" ["rustywebserver"; "8080"; "srv/sub/.."]). vm_compute. reflexivity.
Defined.

(** ** The lines of a request *)

Lemma split_incl_line (a b cur : string) :
  find_char nl a = None ->
  split_incl_aux (a ++ String nl b) cur = str_rev (String nl (str_rev_app a cur)) :: split_incl_aux b "".
Proof.
  revert cur. induction a as [| d a IH]; intros cur H.
  - cbn [append split_incl_aux]. rewrite Ascii.eqb_refl. reflexivity.
  - cbn [find_char] in H. destruct (Ascii.eqb nl d) eqn:E; [discriminate |].
    destruct (find_char nl a) eqn:F; [discriminate |].
    cbn [append split_incl_aux]. rewrite (Ascii.eqb_sym d nl), E. exact (IH (String d cur) eq_refl).
Qed.

Lemma strip_line_end_crlf (a : string) :
  strip_line_end (str_rev (String nl (str_rev_app (a ++ String cr "") ""))) = a.
Proof.
  unfold strip_line_end. cbv zeta. rewrite str_rev_involutive, str_rev_app_app. cbn [str_rev_app].
  cbn beta iota. rewrite !Ascii.eqb_refl. exact (str_rev_involutive a).
Qed.

Lemma lines_crlf (a b : string) : find_char nl a = None -> lines (a ++ crlf ++ b) = a :: lines b.
Proof.
  intros H. unfold lines, split_inclusive_nl.
  replace (a ++ crlf ++ b) with ((a ++ String cr "") ++ String nl b)
    by (rewrite string_app_assoc; reflexivity).
  rewrite split_incl_line; [| apply find_char_app_none; [exact H | reflexivity]].
  cbn [map]. rewrite strip_line_end_crlf. reflexivity.
Qed.

(** Every line after the request line becomes a header line: the header
    lines, the empty line that ends them and any body bytes that arrived
    in the first buffer all go to [lines[1..]], which is where the header
    map is collected from. *)
Theorem parse_request_rest_lines (request_line rest method full_path http_version : string)
  (more : list string) :
  find_char nl request_line = None ->
  utf8_valid (request_line ++ crlf ++ rest) = true ->
  split_whitespace request_line = method :: full_path :: http_version :: more ->
  parse_request (request_line ++ crlf ++ rest) = Some (mkRequest method full_path http_version (lines rest)).
Proof.
  intros Hn Hv Hs. unfold parse_request. cbv zeta. rewrite Hv. cbv beta iota.
  rewrite (lines_crlf _ _ Hn), Hs. reflexivity.
Qed.

Lemma parse_request_rest_lines_witness :
  parse_request ("POST /scripts/s HTTP/1.1" ++ crlf ++
                 ("Content-Length: 3" ++ crlf ++ crlf ++ "Content-Length: 0"))
  = Some (mkRequest "POST" "/scripts/s" "HTTP/1.1"
            (lines ("Content-Length: 3" ++ crlf ++ crlf ++ "Content-Length: 0"))) /\
  lines ("Content-Length: 3" ++ crlf ++ crlf ++ "Content-Length: 0")
  = ["Content-Length: 3"; ""; "Content-Length: 0"] /\
  content_length (collect_headers (lines ("Content-Length: 3" ++ crlf ++ crlf ++ "Content-Length: 0")))
  = 0%N.
Proof.
  split; [| split; vm_compute; reflexivity].
  apply (parse_request_rest_lines "POST /scripts/s HTTP/1.1"
           ("Content-Length: 3" ++ crlf ++ crlf ++ "Content-Length: 0") "POST" "/scripts/s" "HTTP/1.1" []);
    vm_compute; reflexivity.
Defined.
